(** * RQC-Hash: a shallow embedding of [rqc_hash_ibm.py] and
      [rqc_hash_visual_notebook.py]

    Python integers are unbounded and are modelled by [Z]; [str] values are
    [string]s, [bytes] values are lists of integers in [0, 256); a [dict] is
    the list of its items in iteration (insertion) order, with distinct keys.
    A call that may raise returns a [result]: [np.random.default_rng] on a
    negative seed, [QuantumCircuit] on a negative size, [int] and [format]
    on what they refuse, and the evaluator services. *)

From Stdlib Require Import ZArith List String Ascii Bool Lia Reals Lra.
From Stdlib Require Import Permutation Sorted.
Import ListNotations.
Open Scope Z_scope.

(** ** Python built-ins used by the two scripts *)

(** Exceptions derived from [Exception]; [CircuitError] is qiskit's and
    [ServiceError] stands for whatever a remote service raises
    (authentication, connectivity, unknown backend). *)
Inductive exn : Type :=
| ValueError (msg : string)
| RuntimeError (msg : string)
| CircuitError (msg : string)
| ServiceError (msg : string).

Inductive result (A : Type) : Type :=
| Ok (a : A)
| Raise (e : exn).
Arguments Ok {A} a.
Arguments Raise {A} e.

(** [range(stop)] and [range(start, stop, step)] for a positive step. *)
Definition range (stop : Z) : list Z :=
  map Z.of_nat (seq 0 (Z.to_nat stop)).

Definition range3 (start stop step : Z) : list Z :=
  map (fun k => start + step * Z.of_nat k)
      (seq 0 (Z.to_nat ((stop - start + step - 1) / step))).

(** [s[::-1]] *)
Definition string_rev (s : string) : string :=
  string_of_list_ascii (rev (list_ascii_of_string s)).

(** [int(s, 2)] on words over the digits 0 and 1: the accumulator is doubled
    at each digit.  The empty word and any other character raise ValueError
    (Python's literal syntax with sign, prefix, underscores and surrounding
    blanks is outside the bit-patterns this model covers). *)
Definition bit_of_ascii (c : ascii) : option Z :=
  if (c =? "0")%char then Some 0
  else if (c =? "1")%char then Some 1
  else None.

Fixpoint int_base2_from (acc : Z) (cs : list ascii) : option Z :=
  match cs with
  | [] => Some acc
  | c :: cs' =>
      match bit_of_ascii c with
      | Some b => int_base2_from (2 * acc + b) cs'
      | None => None
      end
  end.

Definition int_base2 (s : string) : result Z :=
  match list_ascii_of_string s with
  | [] => Raise (ValueError "invalid literal for int() with base 2")
  | cs =>
      match int_base2_from 0 cs with
      | Some v => Ok v
      | None => Raise (ValueError "invalid literal for int() with base 2")
      end
  end.

(** [math.ceil(n / 4)].  The quotient [n / 4] is a binary64 value; it is exact
    for [|n| < 2^53], the range of qubit counts this model covers. *)
Definition ceil_quarter (n : Z) : Z := (n + 3) / 4.

(** [format(v, "x")]: lowercase hexadecimal digits, most significant first. *)
Definition hex_alphabet : list ascii := list_ascii_of_string "0123456789abcdef".

Definition hex_digit (d : Z) : ascii := nth (Z.to_nat d) hex_alphabet "0"%char.

Fixpoint hex_digits (fuel : nat) (v : Z) (acc : list ascii) : list ascii :=
  let acc' := hex_digit (v mod 16) :: acc in
  match fuel with
  | O => acc'
  | S fuel' => if v <? 16 then acc' else hex_digits fuel' (v / 16) acc'
  end.

Definition format_x (v : Z) : list ascii :=
  hex_digits (Z.to_nat (Z.log2 v)) v [].

Definition zero_fill (w : Z) (ds : list ascii) : list ascii :=
  repeat "0"%char (Z.to_nat w - List.length ds) ++ ds.

(** [f"{v:0{w}x}"]: the sign, if any, comes first and counts in the width;
    a negative width is not a valid format specification. *)
Definition format_0wx (w v : Z) : result string :=
  if w <? 0 then Raise (ValueError "Invalid format specifier")
  else if v <? 0
       then Ok (String "-" (string_of_list_ascii (zero_fill (w - 1) (format_x (- v)))))
       else Ok (string_of_list_ascii (zero_fill w (format_x v))).

(** ** Digest collapser ([rqc_hash_ibm.py], lines 103-112 and 217-218) *)

Module IBMDigest.

(** [Dict[str, int]], items in iteration order. *)
Definition counts_dict : Type := list (string * Z).

Definition wf_counts (counts : counts_dict) : Prop := NoDup (map fst counts).

(** [max(items, key=lambda kv: kv[1])]: the running maximum is replaced only
    by an item whose key is strictly greater. *)
Fixpoint max_by_count (best : string * Z) (items : list (string * Z))
  : string * Z :=
  match items with
  | [] => best
  | kv :: items' =>
      if snd kv >? snd best then max_by_count kv items'
      else max_by_count best items'
  end.

Definition most_frequent_bitstring (counts : counts_dict) : string :=
  match counts with
  | [] => ""
  | kv :: items => fst (max_by_count kv items)
  end.

Definition to_hash_hex (bitstr_msb_lsb : string) (n_qubits : Z) : result string :=
  if (bitstr_msb_lsb =? "")%string then Ok ""%string
  else
    match int_base2 (string_rev bitstr_msb_lsb) with
    | Raise e => Raise e
    | Ok val => format_0wx (ceil_quarter n_qubits) val
    end.

(** The two statements of [main] that reduce the counts to the printed pair
    [(top, hhex)]; the specification calls this step collapse. *)
Definition collapse (counts : counts_dict) (n : Z) : result (string * string) :=
  let top := most_frequent_bitstring counts in
  match to_hash_hex top n with
  | Raise e => Raise e
  | Ok hhex => Ok (top, hhex)
  end.

End IBMDigest.

(** ** Circuits

    The instructions the scripts append to a qiskit [QuantumCircuit]:
    [qc.x(q)] (the specification's SetBit(q, 1)), [qc.rz(phi, q)],
    [qc.rx(theta, q)], [qc.cx(control, target)] and the one-qubit measure
    that [qc.measure(qubits, clbits)] appends for each pair of a qubit and a
    classical bit.  Angles are binary64 values in the scripts and real
    numbers here. *)

Inductive instruction : Type :=
| X (qubit : Z)
| RZ (phi : R) (qubit : Z)
| RX (theta : R) (qubit : Z)
| CX (control target : Z)
| Measure (qubit clbit : Z).

Record QuantumCircuit : Type := mkCircuit {
  num_qubits : Z;
  num_clbits : Z;
  data : list instruction
}.

(** The circuit on [n] qubits and [n] classical bits without instructions. *)
Definition empty_circuit (n : Z) : QuantumCircuit := mkCircuit n n [].

(** [QuantumCircuit(n, n)]: a negative register size is refused. *)
Definition size_error : exn :=
  CircuitError "Register size must be non-negative".

Definition new_circuit (n : Z) : result QuantumCircuit :=
  if n <? 0 then Raise size_error else Ok (empty_circuit n).

Definition append (qc : QuantumCircuit) (i : instruction) : QuantumCircuit :=
  mkCircuit (num_qubits qc) (num_clbits qc) (data qc ++ [i]).

(** [qc.compose(other, inplace=True)] for circuits of the same size. *)
Definition compose (qc other : QuantumCircuit) : QuantumCircuit :=
  mkCircuit (num_qubits qc) (num_clbits qc) (data qc ++ data other).

(** [qc.measure(qubits, clbits)] for two sequences of one length: one
    measure for each pair, in order, and none for empty sequences. *)
Definition measure (qc : QuantumCircuit) (qubits clbits : list Z)
  : QuantumCircuit :=
  mkCircuit (num_qubits qc) (num_clbits qc)
            (data qc ++ map (fun qc => Measure (fst qc) (snd qc))
                            (combine qubits clbits)).

(** ** The seeded stream

    [np.random.default_rng(seed)] builds a Generator object from a
    non-negative seed and raises ValueError on a negative one;
    [rng.random()] returns the next value, in the half-open interval
    [0, 1), and advances that object.  The bit generator itself belongs to
    numpy; it is an interface here: [default_rng] is the state built from a
    seed that is accepted. *)

Definition seed_error : exn := ValueError "expected non-negative integer".

Class Generator : Type := {
  rng_state : Type;
  default_rng : Z -> rng_state;
  random : rng_state -> R * rng_state;
  random_unit : forall g, (0 <= fst (random g) < 1)%R
}.

Section Heap.
Context {G : Generator}.

(** The Generator objects alive in the process, addressed by position. *)
Definition heap : Type := list rng_state.

(** A statement runs on the heap and returns a value or raises; [None] is
    a read through a reference to no object. *)
Definition M (A : Type) : Type := heap -> option (result A * heap).

Definition ret {A : Type} (a : A) : M A := fun h => Some (Ok a, h).

Definition lift {A : Type} (r : result A) : M A := fun h => Some (r, h).

Definition bind {A B : Type} (m : M A) (k : A -> M B) : M B :=
  fun h => match m h with
           | Some (Ok a, h') => k a h'
           | Some (Raise e, h') => Some (Raise e, h')
           | None => None
           end.

Fixpoint store (r : nat) (g : rng_state) (h : heap) : heap :=
  match h, r with
  | [], _ => []
  | _ :: h', O => g :: h'
  | g0 :: h', S r' => g0 :: store r' g h'
  end.

Definition new_default_rng (seed : Z) : M nat :=
  fun h => if seed <? 0
           then Some (Raise seed_error, h)
           else Some (Ok (List.length h), h ++ [default_rng seed]).

Definition rng_random (r : nat) : M R :=
  fun h => match nth_error h r with
           | Some g => let (u, g') := random g in Some (Ok u, store r g' h)
           | None => None
           end.

End Heap.

Notation "x <- m ;; k" := (bind m (fun x => k))
  (at level 61, m at next level, right associativity).

(** ** Random layers

    The layer loop has the same text in both scripts
    ([rqc_hash_ibm.py] lines 83-96, [rqc_hash_visual_notebook.py] lines 15-26). *)

Section Layers.
Context {G : Generator}.

(** [for q in range(n_qubits)]: two draws, then [rz(phi, q)] and [rx(theta, q)]. *)
Fixpoint rotations (rng : nat) (qs : list Z) (qc : QuantumCircuit)
  : M QuantumCircuit :=
  match qs with
  | [] => ret qc
  | q :: qs' =>
      u1 <- rng_random rng ;;
      let theta := (u1 * 2 * PI)%R in
      u2 <- rng_random rng ;;
      let phi := (u2 * 2 * PI)%R in
      rotations rng qs' (append (append qc (RZ phi q)) (RX theta q))
  end.

(** [for q in range(start, n_qubits - 1, 2): qc.cx(q, q + 1)] *)
Definition cx_chain (qs : list Z) (qc : QuantumCircuit) : QuantumCircuit :=
  fold_left (fun qc q => append qc (CX q (q + 1))) qs qc.

Definition entangle (n_qubits : Z) (qc : QuantumCircuit) : QuantumCircuit :=
  let qc := cx_chain (range3 0 (n_qubits - 1) 2) qc in
  let qc := cx_chain (range3 1 (n_qubits - 1) 2) qc in
  if n_qubits >? 2 then append qc (CX (n_qubits - 1) 0) else qc.

(** [for _ in range(depth)] *)
Fixpoint layers (rng : nat) (n_qubits : Z) (ls : list Z) (qc : QuantumCircuit)
  : M QuantumCircuit :=
  match ls with
  | [] => ret qc
  | _ :: ls' =>
      qc <- rotations rng (range n_qubits) qc ;;
      layers rng n_qubits ls' (entangle n_qubits qc)
  end.

End Layers.

(** ** [rqc_hash_ibm.py] *)

Module IBM.
Section Build.
Context {G : Generator}.

(** Lines 75-80: the inner loop over the bits of one byte; [break] leaves it
    with the state unchanged. *)
Fixpoint encode_byte (n_qubits b : Z) (idxs : list Z) (st : QuantumCircuit * Z)
  : QuantumCircuit * Z :=
  match idxs with
  | [] => st
  | i :: idxs' =>
      let (qc, bit_idx) := st in
      if bit_idx >=? n_qubits then st
      else
        let qc := if Z.land (Z.shiftr b i) 1 =? 1 then append qc (X bit_idx)
                  else qc in
        encode_byte n_qubits b idxs' (qc, bit_idx + 1)
  end.

(** Lines 73-80: [for b in message]. *)
Definition encode (n_qubits : Z) (message : list Z) (qc : QuantumCircuit)
  : QuantumCircuit * Z :=
  fold_left (fun st b => encode_byte n_qubits b (range 8) st) message (qc, 0).

Definition build_random_circuit (n_qubits depth seed : Z) (message : list Z)
  : M QuantumCircuit :=
  rng <- new_default_rng seed ;;
  qc <- lift (new_circuit n_qubits) ;;
  let qc := fst (encode n_qubits message qc) in
  qc <- layers rng n_qubits (range depth) qc ;;
  ret (measure qc (range n_qubits) (range n_qubits)).

End Build.
End IBM.

(** ** [rqc_hash_visual_notebook.py] *)

Module Notebook.
Section Build.
Context {G : Generator}.

Definition build_random_circuit (n_qubits depth seed : Z) : M QuantumCircuit :=
  rng <- new_default_rng seed ;;
  qc <- lift (new_circuit n_qubits) ;;
  layers rng n_qubits (range depth) qc.

(** Lines 31-34: the list [bits]. *)
Definition message_bits (msg_bytes : list Z) : list Z :=
  flat_map (fun b => map (fun i => Z.land (Z.shiftr b i) 1) (range 8)) msg_bytes.

Definition enumerate {A : Type} (l : list A) : list (Z * A) :=
  combine (range (Z.of_nat (List.length l))) l.

(** Lines 35-38: [for i, bit in enumerate(bits)]. *)
Fixpoint set_bits (n_qubits : Z) (ibs : list (Z * Z)) (qc : QuantumCircuit)
  : QuantumCircuit :=
  match ibs with
  | [] => qc
  | (i, bit) :: ibs' =>
      if i >=? n_qubits then qc
      else set_bits n_qubits ibs' (if bit =? 0 then qc else append qc (X i))
  end.

Definition encode_message (msg_bytes : list Z) (n_qubits : Z)
  : result QuantumCircuit :=
  match new_circuit n_qubits with
  | Raise e => Raise e
  | Ok qc => Ok (set_bits n_qubits (enumerate (message_bits msg_bytes)) qc)
  end.

(** Lines 53-58 of [main]: the circuit that is run. *)
Definition main_circuit (msg : list Z) (n d s : Z) : M QuantumCircuit :=
  enc <- lift (encode_message msg n) ;;
  rqc <- build_random_circuit n d s ;;
  qc <- lift (new_circuit n) ;;
  let qc := compose qc enc in
  let qc := compose qc rqc in
  ret (measure qc (range n) (range n)).

End Build.
End Notebook.

(** ** Evaluator selection ([rqc_hash_ibm.py], [main], lines 185-215)

    The three evaluators are services outside the repository; a call to
    one either returns counts or raises.  [print] output is kept as a list
    of lines. *)

Module IBMMain.
Import IBMDigest.

(** The choices of [--runtime]: "auto", "provider", "cloud" and "". *)
Inductive runtime_choice : Type := RtAuto | RtProvider | RtCloud | RtEmpty.

(** The module-level flags set by the optional imports. *)
Record capabilities : Type := {
  backend_mode_is_provider : bool;
  runtime_available : bool;
  aer_available : bool
}.

Record services : Type := {
  aer_backend_run : QuantumCircuit -> Z -> result counts_dict;
  run_on_ibm_provider : QuantumCircuit -> string -> Z -> result counts_dict;
  run_on_ibm_runtime : QuantumCircuit -> string -> Z -> Z -> result counts_dict
}.

Inductive provenance : Type :=
| AerSimulator
| IBMRuntime (backend : string) (resilience : Z)
| IBMProvider (backend : string).

Inductive line : Type :=
| RuntimeFailedFallingBack (e : exn)
| ProviderNotAvailable
| WarningUsingAer.

(** Statements that print and may raise. *)
Definition P (A : Type) : Type := list line -> list line * result A.

Definition pret {A : Type} (a : A) : P A := fun out => (out, Ok a).

Definition pbind {A B : Type} (m : P A) (k : A -> P B) : P B :=
  fun out => match m out with
             | (out', Ok a) => k a out'
             | (out', Raise e) => (out', Raise e)
             end.

Definition print (l : line) : P unit := fun out => (out ++ [l], Ok tt).

Definition call {A : Type} (r : result A) : P A := fun out => (out, r).

(** [try: body except Exception as e: handler] *)
Definition try_except {A : Type} (body : P A) (handler : exn -> P A) : P A :=
  fun out => match body out with
             | (out', Ok a) => (out', Ok a)
             | (out', Raise e) => handler e out'
             end.

Notation "x <~ m ;; k" := (pbind m (fun x => k))
  (at level 61, m at next level, right associativity).

Section Select.
Variable caps : capabilities.
Variable sv : services.

Definition run_on_aer (qc : QuantumCircuit) (shots : Z) : result counts_dict :=
  if aer_available caps then aer_backend_run sv qc shots
  else Raise (RuntimeError "Aer not available. Install with: pip install qiskit-aer").

Definition in_auto_cloud (m : runtime_choice) : bool :=
  match m with RtAuto | RtCloud => true | _ => false end.

Definition in_auto_provider_cloud (m : runtime_choice) : bool :=
  match m with RtAuto | RtProvider | RtCloud => true | RtEmpty => false end.

Definition is_provider (m : runtime_choice) : bool :=
  match m with RtProvider => true | _ => false end.

(** Lines 190-215.  The variables [used], [counts] and [mode] are one
    optional pair: it is [Some] exactly when [used] is [True]. *)
Definition select_and_run (qc : QuantumCircuit) (backend_name : string)
    (runtime_mode : runtime_choice) (shots resilience : Z)
  : P (counts_dict * provenance) :=
  if (backend_name =? "")%string then
    counts <~ call (run_on_aer qc shots) ;;
    pret (counts, AerSimulator)
  else
    used <~ (if in_auto_cloud runtime_mode && runtime_available caps then
               try_except
                 (counts <~ call (run_on_ibm_runtime sv qc backend_name shots resilience) ;;
                  pret (Some (counts, IBMRuntime backend_name resilience)))
                 (fun e => _ <~ print (RuntimeFailedFallingBack e) ;; pret None)
             else pret None) ;;
    used <~ (match used with
             | Some r => pret (Some r)
             | None =>
                 if in_auto_provider_cloud runtime_mode || is_provider runtime_mode then
                   if backend_mode_is_provider caps then
                     counts <~ call (run_on_ibm_provider sv qc backend_name shots) ;;
                     pret (Some (counts, IBMProvider backend_name))
                   else
                     _ <~ print ProviderNotAvailable ;; pret None
                 else pret None
             end) ;;
    match used with
    | Some r => pret r
    | None =>
        _ <~ print WarningUsingAer ;;
        counts <~ call (run_on_aer qc shots) ;;
        pret (counts, AerSimulator)
    end.

End Select.
End IBMMain.

(** ** Reference descriptions

    The definitions below follow the wording of the specification; the
    theorems compare the scripts with them. *)

(** Unsigned binary reading, most significant digit first. *)
Definition bit_weight (c : ascii) : Z := if (c =? "1")%char then 1 else 0.

Fixpoint unsigned_binary (cs : list ascii) : Z :=
  match cs with
  | [] => 0
  | c :: cs' => bit_weight c * 2 ^ Z.of_nat (List.length cs') + unsigned_binary cs'
  end.

Definition is_bit (c : ascii) : bool := ((c =? "0") || (c =? "1"))%char.

Definition is_bit_pattern (s : string) : bool :=
  forallb is_bit (list_ascii_of_string s).

(** Reading of a lowercase hexadecimal word. *)
Definition hex_digit_value (c : ascii) : option Z :=
  let k := nat_of_ascii c in
  if ((48 <=? k) && (k <=? 57))%nat then Some (Z.of_nat k - 48)
  else if ((97 <=? k) && (k <=? 102))%nat then Some (Z.of_nat k - 87)
  else None.

Fixpoint hex_value (ds : list ascii) : option Z :=
  match ds with
  | [] => Some 0
  | d :: ds' =>
      match hex_digit_value d, hex_value ds' with
      | Some v, Some r => Some (v * 16 ^ Z.of_nat (List.length ds') + r)
      | _, _ => None
      end
  end.

(** Number of hexadecimal digits of a non-negative integer. *)
Definition hex_length (v : Z) : Z := Z.log2 v / 4 + 1.

(** Bit [i] of the message: bit [i mod 8] of byte [i / 8]. *)
Definition message_bit (message : list Z) (i : nat) : bool :=
  Z.testbit (nth (i / 8) message 0) (Z.of_nat (i mod 8)).

Definition encode_spec (message : list Z) (n : Z) : list instruction :=
  map (fun i => X (Z.of_nat i))
      (filter (message_bit message)
              (seq 0 (Nat.min (Z.to_nat n) (8 * List.length message)))).

(** Entangling pairs of one layer: even [q], then odd [q], while [q + 1 < n];
    then the wrap-around when [n > 2]. *)
Definition entangling (n : Z) : list instruction :=
  map (fun q => CX q (q + 1)) (filter Z.even (range (n - 1)))
  ++ map (fun q => CX q (q + 1)) (filter Z.odd (range (n - 1)))
  ++ (if 2 <? n then [CX (n - 1) 0] else []).

Section Stream.
Context {G : Generator}.

Fixpoint advance (k : nat) (g : rng_state) : rng_state :=
  match k with
  | O => g
  | S k' => advance k' (snd (random g))
  end.

(** The value of draw number [k] (from 0) of the stream that starts at [g]. *)
Definition draw (g : rng_state) (k : nat) : R := fst (random (advance k g)).

Definition scaled (u : R) : R := (u * 2 * PI)%R.

(** Rotations of layer [l] on [N] qubits when, for each qubit, the Z angle is
    draw [zi] and the X angle is draw [xi] of the two draws of that qubit. *)
Definition rotation_block (zi xi : nat) (g : rng_state) (N l : nat)
  : list instruction :=
  flat_map (fun q => [RZ (scaled (draw g (2 * (l * N + q) + zi))) (Z.of_nat q);
                      RX (scaled (draw g (2 * (l * N + q) + xi))) (Z.of_nat q)])
           (seq 0 N).

Definition layers_spec (zi xi : nat) (seed n depth : Z) : list instruction :=
  flat_map (fun l => rotation_block zi xi (default_rng seed) (Z.to_nat n) l
                     ++ entangling n)
           (seq 0 (Z.to_nat depth)).

(** The terminal measures: qubit [q] into classical bit [q], ascending. *)
Definition measure_all (n : Z) : list instruction :=
  map (fun q => Measure q q) (range n).

End Stream.

(** Qubits an instruction touches, angles it carries, and its entangling pair. *)
Definition qubits_of (i : instruction) : list Z :=
  match i with
  | X q | RZ _ q | RX _ q | Measure q _ => [q]
  | CX c t => [c; t]
  end.

Definition in_register (n : Z) (i : instruction) : Prop :=
  Forall (fun q => 0 <= q < n) (qubits_of i).

Definition angle_in_turn (i : instruction) : Prop :=
  match i with
  | RZ a _ | RX a _ => (0 <= a < 2 * PI)%R
  | _ => True
  end.

Definition is_x (i : instruction) : bool :=
  match i with X _ => true | _ => false end.

Fixpoint cx_pairs (l : list instruction) : list (Z * Z) :=
  match l with
  | [] => []
  | CX c t :: l' => (c, t) :: cx_pairs l'
  | _ :: l' => cx_pairs l'
  end.

(** A stand-in stream for worked examples: draw [k] after
    [default_rng(seed)] is [1 / (|seed| + k + 2)]. *)
Definition harmonic_rng : Generator.
Proof.
  refine {| rng_state := nat;
            default_rng := fun seed => Z.abs_nat seed;
            random := fun k => ((/ INR (k + 2))%R, S k);
            random_unit := _ |}.
  intros g. cbn [fst].
  assert (H2 : (2 <= INR (g + 2))%R).
  { rewrite plus_INR. pose proof (pos_INR g). simpl. lra. }
  pose proof (Rinv_0_lt_compat (INR (g + 2)) ltac:(lra)) as Hpos.
  pose proof (Rinv_r (INR (g + 2)) ltac:(lra)) as Hinv.
  split; nra.
Defined.

(** A key of the distribution with the maximum count. *)
Definition is_modal (counts : IBMDigest.counts_dict) (k : string) : Prop :=
  exists c, In (k, c) counts /\ forall k' c', In (k', c') counts -> c' <= c.

(** The tie-break by lexicographic order: the selected key is modal and no
    modal key is smaller. *)
Definition selects_smallest_modal (counts : IBMDigest.counts_dict) : Prop :=
  is_modal counts (IBMDigest.most_frequent_bitstring counts)
  /\ forall k, is_modal counts k ->
       String.leb (IBMDigest.most_frequent_bitstring counts) k = true.

(** Services for worked examples: the local evaluator returns [c]; both
    remote evaluators raise [e]. *)
Definition remote_down (e : exn) (c : IBMDigest.counts_dict) : IBMMain.services :=
  {| IBMMain.aer_backend_run := fun _ _ => Ok c;
     IBMMain.run_on_ibm_provider := fun _ _ _ => Raise e;
     IBMMain.run_on_ibm_runtime := fun _ _ _ _ => Raise e |}.

Definition all_installed : IBMMain.capabilities :=
  {| IBMMain.backend_mode_is_provider := true;
     IBMMain.runtime_available := true;
     IBMMain.aer_available := true |}.

Definition runtime_and_aer_only : IBMMain.capabilities :=
  {| IBMMain.backend_mode_is_provider := false;
     IBMMain.runtime_available := true;
     IBMMain.aer_available := true |}.

(** The circuit [qc] followed by the instructions [l]. *)
Definition extend (qc : QuantumCircuit) (l : list instruction) : QuantumCircuit :=
  mkCircuit (num_qubits qc) (num_clbits qc) (data qc ++ l).

(** The rotation order with the first draw on the Z axis and the second on
    the X axis, for one run of [IBM.build_random_circuit]. *)
Definition z_angle_drawn_first (G : Generator) (n depth seed : Z)
    (message : list Z) (h : @heap G) : Prop :=
  exists qc h',
    @IBM.build_random_circuit G n depth seed message h = Some (Ok qc, h')
    /\ data qc = encode_spec message n ++ @layers_spec G 0 1 seed n depth
                 ++ measure_all n.



(** ** Further code of the two scripts *)

(** [format(v, "b")] and [f"{v:0{w}b}"], as for the hexadecimal form. *)
Fixpoint bin_digits (fuel : nat) (v : Z) (acc : list ascii) : list ascii :=
  let acc' := (if Z.odd v then "1" else "0")%char :: acc in
  match fuel with
  | O => acc'
  | S fuel' => if v <? 2 then acc' else bin_digits fuel' (v / 2) acc'
  end.

Definition format_b (v : Z) : list ascii :=
  bin_digits (Z.to_nat (Z.log2 v)) v [].

Definition format_0wb (w v : Z) : result string :=
  if w <? 0 then Raise (ValueError "Invalid format specifier")
  else if v <? 0
       then Ok (String "-" (string_of_list_ascii (zero_fill (w - 1) (format_b (- v)))))
       else Ok (string_of_list_ascii (zero_fill w (format_b v))).

(** [rqc_hash_visual_notebook.py], lines 75-78: the eight most frequent
    results.  [sorted] is stable, also with [reverse=True], so items with
    equal counts keep their order; insertion from the right is such a sort. *)
Module NotebookTop.

Fixpoint insert_desc (kv : string * Z) (l : list (string * Z))
  : list (string * Z) :=
  match l with
  | [] => [kv]
  | x :: l' => if snd x >? snd kv then x :: insert_desc kv l' else kv :: l
  end.

Fixpoint sorted_desc (items : list (string * Z)) : list (string * Z) :=
  match items with
  | [] => []
  | kv :: items' => insert_desc kv (sorted_desc items')
  end.

Definition top (counts : IBMDigest.counts_dict) : list (string * Z) :=
  firstn 8 (sorted_desc counts).

End NotebookTop.

(** [rqc_hash_ibm.py], lines 149-165: from the Sampler result to counts.
    The four lookups of lines 149 and 152 are inputs: evaluating one raises
    (AttributeError when the result has no such attribute or method) or
    returns [None], a dict or a list of dicts.  A quasi-probability is a
    binary64 value; [int(round(prob * shots))] is a function of the
    interface that returns an integer or raises (ValueError on a NaN,
    OverflowError on an infinity). *)
Module RuntimeCounts.

Inductive key : Type :=
| IntKey (k : Z)
| StrKey (s : string).

Inductive extract_exn : Type :=
| Exn (e : exn)
| IndexError
| AttributeError
| OverflowError.

Section Extract.
Variable prob : Type.
Variable count_of : prob -> Z -> extract_exn + Z.

Definition quasi_dist : Type := list (key * prob).

Inductive payload : Type :=
| PDict (q : quasi_dist)
| PList (qs : list quasi_dist).

(** What evaluating a lookup gives. *)
Definition lookup : Type := (extract_exn + option payload)%type.

Record sampler_data : Type := {
  meas_quasi_dists : lookup;
  data_quasi_dists : lookup;
  data_dist : lookup;
  data_counts : lookup
}.

(** Truth value of [None], a dict and a list. *)
Definition truthy (p : option payload) : bool :=
  match p with
  | None | Some (PDict []) | Some (PList []) => false
  | _ => true
  end.

(** [a or b]: [b] is evaluated only when [a] is falsy. *)
Definition py_or (a b : lookup) : lookup :=
  match a with
  | inl e => inl e
  | inr v => if truthy v then inr v else b
  end.

Definition could_not_extract : extract_exn :=
  Exn (RuntimeError
         "Could not extract quasi-distributions from Runtime result.").

(** Lines 149-154. *)
Definition probe (d : sampler_data) : extract_exn + payload :=
  match py_or (meas_quasi_dists d) (data_quasi_dists d) with
  | inl e => inl e
  | inr (Some p) => inr p
  | inr None =>
      match py_or (data_dist d) (data_counts d) with
      | inl e => inl e
      | inr (Some p) => inr p
      | inr None => inl could_not_extract
      end
  end.

(** Line 156: [quasis[0] if isinstance(quasis, list) else quasis]. *)
Definition first_dist (p : payload) : extract_exn + quasi_dist :=
  match p with
  | PDict q => inr q
  | PList [] => inl IndexError
  | PList (q :: _) => inr q
  end.

(** Lines 160-163. *)
Definition key_string (num_clbits : Z) (bitstr : key) : result string :=
  match bitstr with
  | IntKey k => format_0wb num_clbits k
  | StrKey s => Ok s
  end.

(** [counts[key] = v]: a present key keeps its place. *)
Fixpoint dict_set (counts : IBMDigest.counts_dict) (k : string) (v : Z)
  : IBMDigest.counts_dict :=
  match counts with
  | [] => [(k, v)]
  | (k', v') :: counts' =>
      if (k' =? k)%string then (k', v) :: counts'
      else (k', v') :: dict_set counts' k v
  end.

(** Lines 157-165: the loop over [q.items()]; the key is formatted before
    the value is converted. *)
Fixpoint to_counts (num_clbits shots : Z) (items : quasi_dist)
    (counts : IBMDigest.counts_dict) : extract_exn + IBMDigest.counts_dict :=
  match items with
  | [] => inr counts
  | (bitstr, p) :: items' =>
      match key_string num_clbits bitstr with
      | Raise e => inl (Exn e)
      | Ok k =>
          match count_of p shots with
          | inl e => inl e
          | inr v => to_counts num_clbits shots items' (dict_set counts k v)
          end
      end
  end.

Definition extract_counts (num_clbits shots : Z) (d : sampler_data)
  : extract_exn + IBMDigest.counts_dict :=
  match probe d with
  | inl e => inl e
  | inr quasis =>
      match first_dist quasis with
      | inl e => inl e
      | inr q => to_counts num_clbits shots q []
      end
  end.

End Extract.
End RuntimeCounts.

(** * Properties *)

(** ** Hexadecimal rendering *)

Lemma hex_digit_value_hex_digit (d : Z) :
  0 <= d < 16 -> hex_digit_value (hex_digit d) = Some d.
Proof.
  intros Hd.
  assert (Hk : exists k, (k < 16)%nat /\ d = Z.of_nat k).
  { exists (Z.to_nat d). split; lia. }
  destruct Hk as [k [Hk ->]].
  do 16 (destruct k as [|k]; [reflexivity|]).
  lia.
Qed.

Lemma hex_value_length_some (ds : list ascii) (v : Z) :
  hex_value ds = Some v -> 0 <= v < 16 ^ Z.of_nat (List.length ds).
Proof.
  revert v. induction ds as [|d ds IH]; intros v H; simpl in H.
  - inversion H. simpl. lia.
  - destruct (hex_digit_value d) as [x|] eqn:Hx; [|discriminate].
    destruct (hex_value ds) as [r|] eqn:Hr; [|discriminate].
    inversion H; subst v; clear H.
    specialize (IH r eq_refl).
    assert (Hx' : 0 <= x < 16).
    { unfold hex_digit_value in Hx.
      destruct ((48 <=? nat_of_ascii d)%nat && (nat_of_ascii d <=? 57)%nat) eqn:E1.
      - apply andb_prop in E1. destruct E1 as [E1 E2].
        apply Nat.leb_le in E1, E2. inversion Hx. lia.
      - destruct ((97 <=? nat_of_ascii d)%nat && (nat_of_ascii d <=? 102)%nat) eqn:E2;
          [|discriminate].
        apply andb_prop in E2. destruct E2 as [E2 E3].
        apply Nat.leb_le in E2, E3. inversion Hx. lia. }
    change (List.length (d :: ds)) with (S (List.length ds)).
    rewrite Nat2Z.inj_succ, Z.pow_succ_r by lia.
    nia.
Qed.

Lemma hex_value_app (xs ys : list ascii) (a b : Z) :
  hex_value xs = Some a -> hex_value ys = Some b ->
  hex_value (xs ++ ys) = Some (a * 16 ^ Z.of_nat (List.length ys) + b).
Proof.
  revert a. induction xs as [|x xs IH]; intros a Ha Hb; simpl in *.
  - inversion Ha. rewrite Hb. f_equal.
  - destruct (hex_digit_value x) as [v|]; [|discriminate].
    destruct (hex_value xs) as [r|]; [|discriminate].
    inversion Ha; subst a; clear Ha.
    rewrite (IH r eq_refl Hb).
    rewrite length_app, Nat2Z.inj_add, Z.pow_add_r by lia.
    f_equal. ring.
Qed.

Lemma hex_digits_acc (fuel : nat) (v : Z) (acc : list ascii) :
  hex_digits fuel v acc = hex_digits fuel v [] ++ acc.
Proof.
  revert v acc. induction fuel as [|f IH]; intros v acc; simpl.
  - reflexivity.
  - destruct (v <? 16); [reflexivity|].
    rewrite IH. rewrite (IH _ [_]). rewrite <- app_assoc. reflexivity.
Qed.

Lemma hex_digits_value (fuel : nat) (v : Z) :
  0 <= v < 16 ^ (Z.of_nat fuel + 1) ->
  hex_value (hex_digits fuel v []) = Some v.
Proof.
  revert v. induction fuel as [|f IH]; intros v Hv.
  - simpl in *. rewrite Z.mod_small by lia.
    rewrite hex_digit_value_hex_digit by lia. f_equal. lia.
  - cbn [hex_digits]. destruct (v <? 16) eqn:E.
    + apply Z.ltb_lt in E. simpl. rewrite Z.mod_small by lia.
      rewrite hex_digit_value_hex_digit by lia. f_equal. lia.
    + apply Z.ltb_ge in E. rewrite hex_digits_acc.
      assert (Hq : 0 <= v / 16 < 16 ^ (Z.of_nat f + 1)).
      { split; [apply Z.div_pos; lia|].
        apply Z.div_lt_upper_bound; [lia|].
        rewrite Nat2Z.inj_succ in Hv.
        replace (Z.succ (Z.of_nat f) + 1) with (Z.succ (Z.of_nat f + 1)) in Hv by lia.
        rewrite Z.pow_succ_r in Hv by lia. lia. }
      rewrite (hex_value_app _ [hex_digit (v mod 16)] (v / 16) (v mod 16) (IH _ Hq)).
      * simpl. f_equal. pose proof (Z.div_mod v 16). lia.
      * simpl. rewrite hex_digit_value_hex_digit by (apply Z.mod_pos_bound; lia).
        f_equal. lia.
Qed.

Lemma format_x_value (v : Z) : 0 <= v -> hex_value (format_x v) = Some v.
Proof.
  intros Hv. unfold format_x. apply hex_digits_value.
  split; [exact Hv|].
  rewrite Z2Nat.id by apply Z.log2_nonneg.
  destruct (Z.eq_dec v 0) as [->|Hne].
  - simpl. lia.
  - assert (v < 2 ^ (Z.log2 v + 1)).
    { pose proof (Z.log2_spec v ltac:(lia)) as H. rewrite <- Z.add_1_r in H. lia. }
    assert (2 ^ (Z.log2 v + 1) <= 16 ^ (Z.log2 v + 1)).
    { apply Z.pow_le_mono_l. lia. }
    lia.
Qed.

Lemma hex_digits_length (fuel : nat) (v : Z) :
  0 <= v -> Z.log2 v / 4 <= Z.of_nat fuel ->
  Z.of_nat (List.length (hex_digits fuel v [])) = hex_length v.
Proof.
  unfold hex_length.
  revert v. induction fuel as [|f IH]; intros v Hv Hf.
  - simpl. pose proof (Z.log2_nonneg v).
    assert (0 <= Z.log2 v / 4) by (apply Z.div_pos; lia). lia.
  - cbn [hex_digits]. destruct (v <? 16) eqn:E.
    + apply Z.ltb_lt in E. simpl.
      assert (Z.log2 v < 4).
      { destruct (Z.eq_dec v 0) as [->|]; [simpl; lia|].
        apply Z.log2_lt_pow2; lia. }
      pose proof (Z.log2_nonneg v).
      rewrite Z.div_small by lia. lia.
    + apply Z.ltb_ge in E. rewrite hex_digits_acc, length_app. simpl.
      assert (Hlog : Z.log2 (v / 16) = Z.log2 v - 4).
      { change 16 with (2 ^ 4). rewrite <- Z.shiftr_div_pow2 by lia.
        rewrite Z.log2_shiftr by lia.
        assert (4 <= Z.log2 v).
        { change 4 with (Z.log2 16). apply Z.log2_le_mono. exact E. }
        lia. }
      assert (Hdiv : (Z.log2 v - 4) / 4 = Z.log2 v / 4 - 1).
      { replace (Z.log2 v - 4) with (Z.log2 v + (-1) * 4) by lia.
        rewrite Z.div_add by lia. lia. }
      rewrite Nat2Z.inj_add, IH.
      * rewrite Hlog, Hdiv. simpl. lia.
      * apply Z.div_pos; lia.
      * rewrite Hlog, Hdiv. lia.
Qed.

Lemma format_x_length (v : Z) :
  0 <= v -> Z.of_nat (List.length (format_x v)) = hex_length v.
Proof.
  intros Hv. unfold format_x. apply hex_digits_length; [exact Hv|].
  rewrite Z2Nat.id by apply Z.log2_nonneg.
  pose proof (Z.log2_nonneg v).
  apply Z.div_le_upper_bound; lia.
Qed.

Lemma hex_value_zeros (k : nat) (ds : list ascii) :
  hex_value (repeat "0"%char k ++ ds) = hex_value ds.
Proof.
  induction k as [|k IH]; simpl; [reflexivity|].
  change (hex_digit_value "0") with (Some 0).
  rewrite IH. destruct (hex_value ds); reflexivity.
Qed.

Lemma zero_fill_length (w : Z) (ds : list ascii) :
  0 <= w ->
  Z.of_nat (List.length (zero_fill w ds)) = Z.max w (Z.of_nat (List.length ds)).
Proof.
  intros Hw. unfold zero_fill. rewrite length_app, repeat_length. lia.
Qed.

Lemma hex_length_bound (v w : Z) :
  0 <= v < 2 ^ (4 * w) -> 0 < w -> hex_length v <= w.
Proof.
  intros [Hv Hlt] Hw. unfold hex_length.
  destruct (Z.eq_dec v 0) as [->|Hne]; [simpl; lia|].
  assert (Z.log2 v < 4 * w) by (apply Z.log2_lt_pow2; lia).
  assert (Z.log2 v / 4 < w) by (apply Z.div_lt_upper_bound; lia).
  lia.
Qed.

(** ** Binary reading *)

Lemma int_base2_from_spec (cs : list ascii) (acc : Z) :
  forallb is_bit cs = true ->
  int_base2_from acc cs
  = Some (acc * 2 ^ Z.of_nat (List.length cs) + unsigned_binary cs).
Proof.
  revert acc. induction cs as [|c cs IH]; intros acc H.
  - simpl. f_equal. lia.
  - cbn [forallb] in H. apply andb_prop in H. destruct H as [Hc Hcs].
    cbn [int_base2_from unsigned_binary].
    change (List.length (c :: cs)) with (S (List.length cs)).
    rewrite Nat2Z.inj_succ, Z.pow_succ_r by lia.
    unfold is_bit in Hc. unfold bit_of_ascii, bit_weight.
    destruct (c =? "0")%char eqn:E0.
    + apply Ascii.eqb_eq in E0. subst c.
      change ("0" =? "1")%char with false.
      rewrite IH by exact Hcs. f_equal. ring.
    + simpl in Hc. rewrite Hc.
      rewrite IH by exact Hcs. f_equal. ring.
Qed.

Lemma unsigned_binary_bound (cs : list ascii) :
  0 <= unsigned_binary cs < 2 ^ Z.of_nat (List.length cs).
Proof.
  induction cs as [|c cs IH].
  - simpl. lia.
  - change (List.length (c :: cs)) with (S (List.length cs)).
    rewrite Nat2Z.inj_succ, Z.pow_succ_r by lia.
    cbn [unsigned_binary]. unfold bit_weight. destruct (c =? "1")%char; lia.
Qed.

Lemma string_length_list (s : string) :
  String.length s = List.length (list_ascii_of_string s).
Proof. induction s as [|c s IH]; simpl; congruence. Qed.

Lemma forallb_rev {A : Type} (f : A -> bool) (l : list A) :
  forallb f l = true -> forallb f (rev l) = true.
Proof.
  intros H. apply forallb_forall. intros x Hx.
  apply in_rev in Hx. revert x Hx. apply forallb_forall. exact H.
Qed.

Lemma int_base2_bit_pattern (s : string) :
  s <> ""%string -> is_bit_pattern s = true ->
  int_base2 (string_rev s)
  = Ok (unsigned_binary (rev (list_ascii_of_string s))).
Proof.
  intros Hne Hbits. unfold int_base2, string_rev.
  rewrite list_ascii_of_string_of_list_ascii.
  pose proof (int_base2_from_spec _ 0 (forallb_rev _ _ Hbits)) as Hv.
  destruct (rev (list_ascii_of_string s)) as [|c cs] eqn:E.
  - exfalso. apply Hne.
    apply (f_equal (@rev ascii)) in E. rewrite rev_involutive in E. simpl in E.
    rewrite <- (string_of_list_ascii_of_string s), E. reflexivity.
  - rewrite Hv. f_equal.
Qed.

Lemma ceil_quarter_spec (n : Z) :
  4 * (ceil_quarter n - 1) < n <= 4 * ceil_quarter n.
Proof.
  unfold ceil_quarter.
  pose proof (Z.div_mod (n + 3) 4 ltac:(lia)).
  pose proof (Z.mod_pos_bound (n + 3) 4 ltac:(lia)).
  lia.
Qed.

(** C1. For a non-empty bit-pattern [s] and a qubit count [n], [to_hash_hex]
    returns a word of lowercase hexadecimal digits whose value is the unsigned
    binary reading of [s] reversed, zero-padded to [ceil(n / 4)] digits (that
    many digits exactly when [s] has at most [n] characters); [ceil_quarter n]
    is the least integer not below [n / 4]; and collapsing a distribution
    whose only key is "110" at qubit count 3 gives the digest "3". *)
Theorem C1_digest_derivation (s : string) (n : Z) :
  s <> ""%string -> is_bit_pattern s = true -> 0 < n < 2 ^ 53 ->
  let v := unsigned_binary (rev (list_ascii_of_string s)) in
  (exists d : string,
      IBMDigest.to_hash_hex s n = Ok d
      /\ (forall counts, IBMDigest.most_frequent_bitstring counts = s ->
                         IBMDigest.collapse counts n = Ok (s, d))
      /\ hex_value (list_ascii_of_string d) = Some v
      /\ Z.of_nat (String.length d) = Z.max (ceil_quarter n) (hex_length v)
      /\ (Z.of_nat (String.length s) <= n ->
          Z.of_nat (String.length d) = ceil_quarter n))
  /\ 4 * (ceil_quarter n - 1) < n <= 4 * ceil_quarter n
  /\ forall c : Z,
      IBMDigest.collapse [("110"%string, c)] 3 = Ok ("110"%string, "3"%string).
Proof.
  intros Hne Hbits Hn v.
  pose proof (ceil_quarter_spec n) as Hceil.
  assert (Hv : 0 <= v < 2 ^ Z.of_nat (String.length s)).
  { subst v. rewrite string_length_list, <- length_rev.
    apply unsigned_binary_bound. }
  split; [|split; [exact Hceil | intros c; reflexivity]].
  exists (string_of_list_ascii (zero_fill (ceil_quarter n) (format_x v))).
  assert (Hlen : Z.of_nat (String.length
             (string_of_list_ascii (zero_fill (ceil_quarter n) (format_x v))))
           = Z.max (ceil_quarter n) (hex_length v)).
  { rewrite string_length_list, list_ascii_of_string_of_list_ascii.
    rewrite zero_fill_length by lia. rewrite format_x_length by lia.
    reflexivity. }
  assert (Hrun : IBMDigest.to_hash_hex s n
                 = Ok (string_of_list_ascii
                         (zero_fill (ceil_quarter n) (format_x v)))).
  { unfold IBMDigest.to_hash_hex.
    destruct (String.eqb_spec s "") as [E|_]; [contradiction|].
    rewrite (int_base2_bit_pattern s Hne Hbits). fold v.
    unfold format_0wx.
    destruct (Z.ltb_spec (ceil_quarter n) 0) as [Hw|_]; [lia|].
    destruct (Z.ltb_spec v 0) as [Hv0|_]; [lia|].
    reflexivity. }
  repeat split.
  - exact Hrun.
  - intros counts Htop. unfold IBMDigest.collapse. rewrite Htop, Hrun.
    reflexivity.
  - rewrite list_ascii_of_string_of_list_ascii. unfold zero_fill.
    rewrite hex_value_zeros. apply format_x_value. lia.
  - exact Hlen.
  - intros Hs. rewrite Hlen.
    assert (hex_length v <= ceil_quarter n).
    { apply hex_length_bound; [|lia]. split; [lia|].
      apply Z.lt_le_trans with (2 ^ Z.of_nat (String.length s)); [lia|].
      apply Z.pow_le_mono_r; lia. }
    lia.
Qed.

Lemma C1_digest_derivation_witness :
  "110"%string <> ""%string
  /\ is_bit_pattern "110" = true
  /\ 0 < 3 < 2 ^ 53
  /\ exists d : string,
       IBMDigest.to_hash_hex "110" 3 = Ok d
       /\ hex_value (list_ascii_of_string d) = Some 3
       /\ Z.of_nat (String.length d) = 1.
Proof.
  assert (H1 : "110"%string <> ""%string) by discriminate.
  assert (H2 : is_bit_pattern "110" = true) by reflexivity.
  assert (H3 : 0 < 3 < 2 ^ 53) by (vm_compute; split; reflexivity).
  repeat split; try assumption.
  destruct (C1_digest_derivation "110" 3 H1 H2 H3) as [[d [Hd [_ [Hv [_ Hl]]]]] _].
  exists d. repeat split; [exact Hd | exact Hv |].
  apply Hl. vm_compute. discriminate.
Defined.

(** C7. Collapsing the empty distribution returns the empty bit-pattern and
    the empty digest, for every qubit count, and raises nothing. *)
Theorem C7_empty_distribution (n : Z) :
  IBMDigest.most_frequent_bitstring [] = ""%string
  /\ IBMDigest.to_hash_hex "" n = Ok ""%string
  /\ IBMDigest.collapse [] n = Ok (""%string, ""%string).
Proof. repeat split. Qed.

(** ** Modal bit-pattern *)

Lemma max_by_count_split (items : list (string * Z)) (best : string * Z) :
  exists before after,
    best :: items = before ++ IBMDigest.max_by_count best items :: after
    /\ Forall (fun kv => snd kv < snd (IBMDigest.max_by_count best items)) before
    /\ Forall (fun kv => snd kv <= snd (IBMDigest.max_by_count best items)) after.
Proof.
  revert best. induction items as [|kv items IH]; intros best.
  - exists [], []. simpl. repeat split; constructor.
  - cbn [IBMDigest.max_by_count].
    destruct (Z.gtb_spec (snd kv) (snd best)) as [Hgt|Hle].
    + destruct (IH kv) as [before [after [Heq [Hb Ha]]]].
      exists (best :: before), after. repeat split.
      * simpl. rewrite Heq. reflexivity.
      * constructor; [|exact Hb].
        destruct before as [|x before].
        -- simpl in Heq. injection Heq as Hkv _. rewrite <- Hkv. lia.
        -- simpl in Heq. injection Heq as Hx _. subst x.
           apply Forall_inv in Hb. lia.
      * exact Ha.
    + destruct (IH best) as [before [after [Heq [Hb Ha]]]].
      destruct before as [|x before].
      * simpl in Heq. injection Heq as Hbest Hitems.
        exists [], (kv :: after). repeat split.
        -- simpl. rewrite <- Hbest. do 2 f_equal. exact Hitems.
        -- constructor.
        -- constructor; [rewrite <- Hbest; lia | exact Ha].
      * simpl in Heq. injection Heq as Hx Hitems. subst x.
        pose proof (Forall_inv Hb) as Hlt. apply Forall_inv_tail in Hb.
        exists (best :: kv :: before), after. repeat split.
        -- simpl. do 2 f_equal. exact Hitems.
        -- constructor; [exact Hlt|]. constructor; [simpl in Hlt; lia | exact Hb].
        -- exact Ha.
Qed.

(** C5 (as the code has it). On a non-empty distribution the selected
    bit-pattern is a key with the maximum count, and among the keys with that
    count it is the one that comes first in the iteration order of the
    distribution: every item before it has a strictly smaller count, every
    item after it a count that is not greater. *)
Theorem C5_first_modal (counts : IBMDigest.counts_dict) :
  counts <> [] ->
  exists c before after,
    counts = before ++ (IBMDigest.most_frequent_bitstring counts, c) :: after
    /\ Forall (fun kv => snd kv < c) before
    /\ Forall (fun kv => snd kv <= c) after
    /\ is_modal counts (IBMDigest.most_frequent_bitstring counts).
Proof.
  intros Hne. destruct counts as [|kv items]; [contradiction|].
  destruct (max_by_count_split items kv) as [before [after [Heq [Hb Ha]]]].
  cbn [IBMDigest.most_frequent_bitstring].
  destruct (IBMDigest.max_by_count kv items) as [k c] eqn:E. simpl in *.
  exists c, before, after. repeat split; try assumption.
  exists c. split.
  - rewrite Heq. apply in_or_app. right. left. reflexivity.
  - intros k' c' Hin. rewrite Heq in Hin. apply in_app_or in Hin.
    destruct Hin as [Hin|[Hin|Hin]].
    + rewrite Forall_forall in Hb. specialize (Hb _ Hin). simpl in Hb. lia.
    + inversion Hin. lia.
    + rewrite Forall_forall in Ha. specialize (Ha _ Hin). simpl in Ha. lia.
Qed.

Lemma C5_first_modal_witness :
  [("1"%string, 5); ("0"%string, 5)] <> []
  /\ exists c before after,
       [("1"%string, 5); ("0"%string, 5)]
       = before ++ (IBMDigest.most_frequent_bitstring
                      [("1"%string, 5); ("0"%string, 5)], c) :: after
       /\ Forall (fun kv => snd kv < c) before
       /\ Forall (fun kv => snd kv <= c) after.
Proof.
  assert (H : [("1"%string, 5); ("0"%string, 5)] <> []) by discriminate.
  split; [exact H|].
  destruct (C5_first_modal [("1"%string, 5); ("0"%string, 5)] H)
    as [c [before [after [H1 [H2 [H3 _]]]]]].
  exists c, before, after. repeat split; assumption.
Defined.

(** C5, counterexample. In the distribution with items ("1", 5) and ("0", 5),
    in that order, both keys are modal, "1" is selected and "0" is the
    lexicographically smaller one. *)
Lemma C5_tie_not_lexicographic :
  IBMDigest.wf_counts [("1"%string, 5); ("0"%string, 5)]
  /\ IBMDigest.most_frequent_bitstring [("1"%string, 5); ("0"%string, 5)]
     = "1"%string
  /\ is_modal [("1"%string, 5); ("0"%string, 5)] "0"
  /\ String.ltb "0" "1" = true
  /\ ~ selects_smallest_modal [("1"%string, 5); ("0"%string, 5)].
Proof.
  assert (Hmodal : is_modal [("1"%string, 5); ("0"%string, 5)] "0").
  { exists 5. split; [right; left; reflexivity|].
    intros k' c' [H|[H|[]]]; inversion H; lia. }
  repeat split.
  - constructor; [|constructor; [|constructor]].
    + intros [H|[]]. discriminate.
    + intros [].
  - exact Hmodal.
  - intros [_ H]. specialize (H "0"%string Hmodal). discriminate.
Qed.

(** ** Evaluator selection *)

(** The managed-session attempt sits in a [try]: when it raises and the
    provider package is absent, the local evaluator answers. *)
Lemma runtime_failure_falls_back (qc : QuantumCircuit) (shots resilience : Z)
    (e : exn) (c : IBMDigest.counts_dict) :
  IBMMain.select_and_run runtime_and_aer_only (remote_down e c) qc
    "ibm_osaka" IBMMain.RtCloud shots resilience []
  = ([IBMMain.RuntimeFailedFallingBack e; IBMMain.ProviderNotAvailable;
      IBMMain.WarningUsingAer],
     Ok (c, IBMMain.AerSimulator)).
Proof. reflexivity. Qed.

(** C6 (the code at the failing input). With a backend name, every mode that
    reaches the provider attempt, the provider package installed and the
    local evaluator present, an exception raised by the provider attempt is
    the outcome of the selection: the local evaluator is not called and no
    warning is printed after the failure. *)
Theorem C6_provider_failure_is_raised (qc : QuantumCircuit)
    (shots resilience : Z) (e : exn) (c : IBMDigest.counts_dict) :
  IBMMain.select_and_run all_installed (remote_down e c) qc
    "ibm_osaka" IBMMain.RtProvider shots resilience []
  = ([], Raise e)
  /\ IBMMain.select_and_run all_installed (remote_down e c) qc
       "ibm_osaka" IBMMain.RtAuto shots resilience []
     = ([IBMMain.RuntimeFailedFallingBack e], Raise e)
  /\ IBMMain.select_and_run all_installed (remote_down e c) qc
       "ibm_osaka" IBMMain.RtCloud shots resilience []
     = ([IBMMain.RuntimeFailedFallingBack e], Raise e)
  /\ IBMMain.run_on_aer all_installed (remote_down e c) qc shots = Ok c.
Proof. repeat split. Qed.

(** ** Circuits as instruction lists *)

Lemma extend_nil (qc : QuantumCircuit) : extend qc [] = qc.
Proof. destruct qc. unfold extend. simpl. rewrite app_nil_r. reflexivity. Qed.

Lemma extend_extend (qc : QuantumCircuit) (l1 l2 : list instruction) :
  extend (extend qc l1) l2 = extend qc (l1 ++ l2).
Proof. unfold extend. simpl. rewrite app_assoc. reflexivity. Qed.

Lemma append_extend (qc : QuantumCircuit) (i : instruction) :
  append qc i = extend qc [i].
Proof. reflexivity. Qed.

Lemma flat_map_ext_in {A B : Type} (f g : A -> list B) (l : list A) :
  (forall a, In a l -> f a = g a) -> flat_map f l = flat_map g l.
Proof.
  induction l as [|a l IH]; intros H; simpl; [reflexivity|].
  rewrite (H a) by (left; reflexivity).
  rewrite IH; [reflexivity|]. intros b Hb. apply H. right. exact Hb.
Qed.

Lemma cx_chain_extend (qs : list Z) (qc : QuantumCircuit) :
  cx_chain qs qc = extend qc (map (fun q => CX q (q + 1)) qs).
Proof.
  unfold cx_chain. revert qc. induction qs as [|q qs IH]; intros qc; simpl.
  - symmetry. apply extend_nil.
  - rewrite IH, append_extend, extend_extend. reflexivity.
Qed.

Lemma range_S (m : nat) :
  range (Z.of_nat (S m)) = range (Z.of_nat m) ++ [Z.of_nat m].
Proof.
  unfold range. rewrite !Nat2Z.id, seq_S, map_app. reflexivity.
Qed.

Lemma range_nonpos (m : Z) : m <= 0 -> range m = [].
Proof.
  intros H. unfold range. replace (Z.to_nat m) with O by lia. reflexivity.
Qed.

Lemma range3_even_nat (m : nat) :
  range3 0 (Z.of_nat m) 2 = filter Z.even (range (Z.of_nat m)).
Proof.
  unfold range3. induction m as [|m IH].
  - reflexivity.
  - rewrite range_S, filter_app, <- IH. cbn [filter].
    replace (Z.of_nat (S m) - 0 + 2 - 1) with (Z.of_nat m + 2) by lia.
    replace (Z.of_nat m - 0 + 2 - 1) with (Z.of_nat m + 1) by lia.
    pose proof (Z.div_mod (Z.of_nat m + 1) 2 ltac:(lia)) as D1.
    pose proof (Z.mod_pos_bound (Z.of_nat m + 1) 2 ltac:(lia)) as B1.
    pose proof (Z.div_mod (Z.of_nat m + 2) 2 ltac:(lia)) as D2.
    pose proof (Z.mod_pos_bound (Z.of_nat m + 2) 2 ltac:(lia)) as B2.
    destruct (Z.even (Z.of_nat m)) eqn:E.
    + apply Z.even_spec in E. destruct E as [j Hj].
      replace (Z.to_nat ((Z.of_nat m + 2) / 2))
        with (S (Z.to_nat ((Z.of_nat m + 1) / 2))) by lia.
      rewrite seq_S, map_app. cbn [map Nat.add]. repeat f_equal. lia.
    + assert (Ho : Z.odd (Z.of_nat m) = true).
      { rewrite <- Z.negb_even, E. reflexivity. }
      apply Z.odd_spec in Ho. destruct Ho as [j Hj].
      replace (Z.to_nat ((Z.of_nat m + 2) / 2))
        with (Z.to_nat ((Z.of_nat m + 1) / 2)) by lia.
      rewrite app_nil_r. reflexivity.
Qed.

Lemma range3_odd_nat (m : nat) :
  range3 1 (Z.of_nat m) 2 = filter Z.odd (range (Z.of_nat m)).
Proof.
  unfold range3. induction m as [|m IH].
  - reflexivity.
  - rewrite range_S, filter_app, <- IH. cbn [filter].
    replace (Z.of_nat (S m) - 1 + 2 - 1) with (Z.of_nat m + 1) by lia.
    replace (Z.of_nat m - 1 + 2 - 1) with (Z.of_nat m) by lia.
    pose proof (Z.div_mod (Z.of_nat m + 1) 2 ltac:(lia)) as D1.
    pose proof (Z.mod_pos_bound (Z.of_nat m + 1) 2 ltac:(lia)) as B1.
    pose proof (Z.div_mod (Z.of_nat m) 2 ltac:(lia)) as D2.
    pose proof (Z.mod_pos_bound (Z.of_nat m) 2 ltac:(lia)) as B2.
    destruct (Z.odd (Z.of_nat m)) eqn:E.
    + apply Z.odd_spec in E. destruct E as [j Hj].
      replace (Z.to_nat ((Z.of_nat m + 1) / 2))
        with (S (Z.to_nat (Z.of_nat m / 2))) by lia.
      rewrite seq_S, map_app. cbn [map Nat.add]. repeat f_equal. lia.
    + assert (He : Z.even (Z.of_nat m) = true).
      { rewrite <- Z.negb_odd, E. reflexivity. }
      apply Z.even_spec in He. destruct He as [j Hj].
      replace (Z.to_nat ((Z.of_nat m + 1) / 2))
        with (Z.to_nat (Z.of_nat m / 2)) by lia.
      rewrite app_nil_r. reflexivity.
Qed.

Lemma range3_even (m : Z) : range3 0 m 2 = filter Z.even (range m).
Proof.
  destruct (Z.le_gt_cases m 0) as [H|H].
  - rewrite range_nonpos by exact H. unfold range3.
    pose proof (Z.div_mod (m - 0 + 2 - 1) 2 ltac:(lia)).
    pose proof (Z.mod_pos_bound (m - 0 + 2 - 1) 2 ltac:(lia)).
    replace (Z.to_nat ((m - 0 + 2 - 1) / 2)) with O by lia. reflexivity.
  - rewrite <- (Z2Nat.id m) by lia. apply range3_even_nat.
Qed.

Lemma range3_odd (m : Z) : range3 1 m 2 = filter Z.odd (range m).
Proof.
  destruct (Z.le_gt_cases m 0) as [H|H].
  - rewrite range_nonpos by exact H. unfold range3.
    pose proof (Z.div_mod (m - 1 + 2 - 1) 2 ltac:(lia)).
    pose proof (Z.mod_pos_bound (m - 1 + 2 - 1) 2 ltac:(lia)).
    replace (Z.to_nat ((m - 1 + 2 - 1) / 2)) with O by lia. reflexivity.
  - rewrite <- (Z2Nat.id m) by lia. apply range3_odd_nat.
Qed.

Lemma entangle_extend (n : Z) (qc : QuantumCircuit) :
  entangle n qc = extend qc (entangling n).
Proof.
  unfold entangle, entangling.
  rewrite !cx_chain_extend, extend_extend, range3_even, range3_odd.
  destruct (Z.gtb_spec n 2) as [H|H].
  - destruct (Z.ltb_spec 2 n) as [_|H']; [|lia].
    rewrite append_extend, extend_extend, <- app_assoc. reflexivity.
  - destruct (Z.ltb_spec 2 n) as [H'|_]; [lia|].
    rewrite app_nil_r. reflexivity.
Qed.

(** ** Running the layer loop on a fresh Generator object *)

Section Run.
Context {G : Generator}.

Lemma advance_succ (k : nat) (g : rng_state) :
  advance (S k) g = snd (random (advance k g)).
Proof.
  revert g. induction k as [|k IH]; intros g; [reflexivity|].
  change (advance (S (S k)) g) with (advance (S k) (snd (random g))).
  rewrite IH. reflexivity.
Qed.

Lemma store_last (h : heap) (g g' : rng_state) :
  store (List.length h) g' (h ++ [g]) = h ++ [g'].
Proof. induction h as [|x h IH]; simpl; [reflexivity | rewrite IH; reflexivity]. Qed.

Lemma nth_error_last (h : heap) (g : rng_state) :
  nth_error (h ++ [g]) (List.length h) = Some g.
Proof. induction h as [|x h IH]; simpl; [reflexivity | exact IH]. Qed.

(** A draw from the object allocated last returns the next value of its
    stream and leaves every other object as it was. *)
Lemma rng_random_last (h : heap) (g : rng_state) (k : nat) :
  rng_random (List.length h) (h ++ [advance k g])
  = Some (Ok (draw g k), h ++ [advance (S k) g]).
Proof.
  unfold rng_random. rewrite nth_error_last. unfold draw.
  rewrite advance_succ.
  destruct (random (advance k g)) as [u g']. simpl.
  rewrite store_last. reflexivity.
Qed.

Lemma rotations_run (len a k : nat) (g : rng_state) (h : heap)
    (qc : QuantumCircuit) :
  rotations (List.length h) (map Z.of_nat (seq a len)) qc (h ++ [advance k g])
  = Some (Ok (extend qc
            (flat_map (fun q => [RZ (scaled (draw g (k + 2 * (q - a) + 1))) (Z.of_nat q);
                                 RX (scaled (draw g (k + 2 * (q - a) + 0))) (Z.of_nat q)])
                      (seq a len))),
          h ++ [advance (k + 2 * len) g]).
Proof.
  revert a k qc. induction len as [|len IH]; intros a k qc.
  - cbn [seq map rotations flat_map]. unfold ret. rewrite extend_nil.
    replace (k + 2 * 0)%nat with k by lia. reflexivity.
  - cbn [seq map rotations]. unfold bind at 1.
    rewrite rng_random_last. unfold bind at 1.
    rewrite rng_random_last.
    replace (S (S k)) with (k + 2)%nat by lia.
    rewrite IH. rewrite !append_extend, !extend_extend.
    replace (k + 2 + 2 * len)%nat with (k + 2 * S len)%nat by lia.
    cbn [flat_map]. do 4 f_equal.
    replace (k + 2 * (a - a) + 1)%nat with (S k) by lia.
    replace (k + 2 * (a - a) + 0)%nat with k by lia.
    cbn [app]. unfold scaled. do 2 f_equal.
    apply flat_map_ext_in. intros q Hq. apply in_seq in Hq.
    replace (k + 2 + 2 * (q - S a) + 1)%nat with (k + 2 * (q - a) + 1)%nat by lia.
    replace (k + 2 + 2 * (q - S a) + 0)%nat with (k + 2 * (q - a) + 0)%nat by lia.
    reflexivity.
Qed.

Lemma rotations_layer (N l : nat) (g : rng_state) (h : heap)
    (qc : QuantumCircuit) :
  rotations (List.length h) (range (Z.of_nat N)) qc (h ++ [advance (2 * (l * N)) g])
  = Some (Ok (extend qc (rotation_block 1 0 g N l)),
          h ++ [advance (2 * (S l * N)) g]).
Proof.
  unfold range. rewrite Nat2Z.id, rotations_run.
  replace (2 * (l * N) + 2 * N)%nat with (2 * (S l * N))%nat by lia.
  do 4 f_equal. unfold rotation_block.
  apply flat_map_ext_in. intros q _.
  replace (2 * (l * N) + 2 * (q - 0) + 1)%nat with (2 * (l * N + q) + 1)%nat by lia.
  replace (2 * (l * N) + 2 * (q - 0) + 0)%nat with (2 * (l * N + q) + 0)%nat by lia.
  reflexivity.
Qed.

Lemma layers_run (N : nat) (ls : list Z) (l0 : nat) (g : rng_state)
    (h : heap) (qc : QuantumCircuit) :
  layers (List.length h) (Z.of_nat N) ls qc (h ++ [advance (2 * (l0 * N)) g])
  = Some (Ok (extend qc
                (flat_map (fun l => rotation_block 1 0 g N l
                                    ++ entangling (Z.of_nat N))
                          (seq l0 (List.length ls)))),
          h ++ [advance (2 * ((l0 + List.length ls) * N)) g]).
Proof.
  revert l0 qc. induction ls as [|x ls IH]; intros l0 qc.
  - cbn [layers List.length seq flat_map]. unfold ret.
    rewrite extend_nil, Nat.add_0_r. reflexivity.
  - cbn [layers]. unfold bind at 1. rewrite rotations_layer.
    rewrite entangle_extend, extend_extend, IH, extend_extend.
    cbn [List.length seq flat_map].
    replace (S l0 + List.length ls)%nat with (l0 + S (List.length ls))%nat by lia.
    rewrite <- app_assoc. reflexivity.
Qed.

Lemma range_length (m : Z) : List.length (range m) = Z.to_nat m.
Proof. unfold range. rewrite length_map, length_seq. reflexivity. Qed.

(** For a non-positive qubit count the loops over qubits are empty. *)
Lemma layers_run_nonpos (n : Z) (ls : list Z) (l0 rng : nat) (h : heap)
    (qc : QuantumCircuit) :
  n <= 0 ->
  layers rng n ls qc h
  = Some (Ok (extend qc (flat_map (fun _ : nat => entangling n)
                                  (seq l0 (List.length ls)))), h).
Proof.
  intros Hn. revert l0 qc. induction ls as [|x ls IH]; intros l0 qc.
  - simpl. unfold ret. rewrite extend_nil. reflexivity.
  - cbn [layers]. rewrite (range_nonpos n Hn). cbn [rotations].
    unfold bind, ret. rewrite (IH (S l0)), entangle_extend, extend_extend.
    reflexivity.
Qed.

End Run.

Section RunFromSeed.
Context {G : Generator}.

Lemma layers_from_seed (n depth seed : Z) (h : heap) (qc : QuantumCircuit) :
  layers (List.length h) n (range depth) qc (h ++ [default_rng seed])
  = Some (Ok (extend qc (layers_spec 1 0 seed n depth)),
          h ++ [advance (2 * (Z.to_nat depth * Z.to_nat n)) (default_rng seed)]).
Proof.
  unfold layers_spec. destruct (Z.le_gt_cases n 0) as [Hn|Hn].
  - rewrite (layers_run_nonpos n _ 0%nat _ _ _ Hn), range_length.
    replace (Z.to_nat n) with O by lia.
    rewrite Nat.mul_0_r. reflexivity.
  - pose proof (layers_run (Z.to_nat n) (range depth) 0 (default_rng seed) h qc)
      as H.
    rewrite Z2Nat.id in H by lia.
    change (advance (2 * (0 * Z.to_nat n)) (default_rng seed))
      with (default_rng seed) in H.
    rewrite H, range_length. reflexivity.
Qed.

End RunFromSeed.

(** ** Message encoding *)

Lemma bit_test (b i : Z) :
  0 <= i -> Z.land (Z.shiftr b i) 1 = Z.b2z (Z.testbit b i).
Proof.
  intros Hi. change 1 with (Z.ones 1). rewrite Z.land_ones by lia.
  change (2 ^ 1) with 2. rewrite <- Z.bit0_mod.
  rewrite Z.shiftr_spec by lia. reflexivity.
Qed.

Lemma bit_test_eqb (b i : Z) :
  0 <= i -> (Z.land (Z.shiftr b i) 1 =? 1) = Z.testbit b i.
Proof.
  intros Hi. rewrite bit_test by exact Hi. destruct (Z.testbit b i); reflexivity.
Qed.

Lemma filter_ext_seq (f g : nat -> bool) (a len : nat) :
  (forall j, (a <= j < a + len)%nat -> f j = g j) ->
  filter f (seq a len) = filter g (seq a len).
Proof.
  intros H. apply filter_ext_in. intros j Hj. apply in_seq in Hj. apply H. exact Hj.
Qed.

(** The inner loop of [rqc_hash_ibm.py] on the bit positions [a, a + len) of
    byte [b], entered with [bit_idx = i]. *)
Lemma encode_byte_run (n b : Z) (len a i : nat) (qc : QuantumCircuit) :
  IBM.encode_byte n b (map Z.of_nat (seq a len)) (qc, Z.of_nat i)
  = (extend qc
       (map (fun j => X (Z.of_nat j))
            (filter (fun j => Z.testbit b (Z.of_nat (a + (j - i))))
                    (seq i (Nat.min len (Z.to_nat n - i))))),
     Z.of_nat (i + Nat.min len (Z.to_nat n - i))).
Proof.
  revert a i qc. induction len as [|len IH]; intros a i qc.
  - cbn. rewrite extend_nil, Nat.add_0_r. reflexivity.
  - cbn [seq map IBM.encode_byte].
    destruct (Z.geb_spec (Z.of_nat i) n) as [Hge|Hlt].
    + replace (Z.to_nat n - i)%nat with O by lia.
      rewrite Nat.min_0_r. cbn. rewrite extend_nil, Nat.add_0_r. reflexivity.
    + rewrite bit_test_eqb by lia.
      replace (Z.of_nat i + 1) with (Z.of_nat (S i)) by lia.
      replace (Nat.min (S len) (Z.to_nat n - i))
        with (S (Nat.min len (Z.to_nat n - S i))) by lia.
      cbn [seq filter]. replace (a + (i - i))%nat with a by lia.
      rewrite (filter_ext_seq _ (fun j => Z.testbit b (Z.of_nat (S a + (j - S i))))).
      2:{ intros j Hj. do 2 f_equal. lia. }
      destruct (Z.testbit b (Z.of_nat a)).
      * rewrite IH, append_extend, extend_extend. cbn [map app].
        f_equal. lia.
      * rewrite IH. f_equal. lia.
Qed.

Lemma message_bit_app_l (pre post : list Z) (j : nat) :
  (j < 8 * List.length pre)%nat ->
  message_bit (pre ++ post) j = message_bit pre j.
Proof.
  intros Hj. unfold message_bit. rewrite app_nth1; [reflexivity|].
  apply Nat.Div0.div_lt_upper_bound. exact Hj.
Qed.

Lemma message_bit_app_r (pre post : list Z) (j : nat) :
  (8 * List.length pre <= j)%nat ->
  message_bit (pre ++ post) j = message_bit post (j - 8 * List.length pre).
Proof.
  intros Hj. unfold message_bit.
  remember (j - 8 * List.length pre)%nat as t eqn:Ht.
  replace j with (t + List.length pre * 8)%nat by lia.
  rewrite Nat.div_add, Nat.Div0.mod_add by lia.
  rewrite app_nth2 by lia.
  replace (t / 8 + List.length pre - List.length pre)%nat with (t / 8)%nat by lia.
  reflexivity.
Qed.

Lemma message_bit_single (b : Z) (t : nat) :
  (t < 8)%nat -> message_bit [b] t = Z.testbit b (Z.of_nat t).
Proof.
  intros Ht. unfold message_bit.
  rewrite Nat.div_small, Nat.mod_small by exact Ht. reflexivity.
Qed.

Lemma encode_spec_snoc (pre : list Z) (b n : Z) :
  let i := Nat.min (Z.to_nat n) (8 * List.length pre) in
  encode_spec (pre ++ [b]) n
  = encode_spec pre n
    ++ map (fun j => X (Z.of_nat j))
           (filter (fun j => Z.testbit b (Z.of_nat (0 + (j - i))))
                   (seq i (Nat.min 8 (Z.to_nat n - i)))).
Proof.
  intros i. unfold encode_spec. rewrite length_app. cbn [List.length].
  replace (Nat.min (Z.to_nat n) (8 * (List.length pre + 1)))
    with (i + Nat.min 8 (Z.to_nat n - i))%nat by lia.
  rewrite seq_app, filter_app, map_app. fold i. f_equal.
  - f_equal. apply filter_ext_seq. intros j Hj.
    apply message_bit_app_l. lia.
  - f_equal. apply filter_ext_seq. intros j Hj. cbn [Nat.add] in *.
    assert (i = (8 * List.length pre)%nat) by lia.
    rewrite message_bit_app_r by lia.
    rewrite message_bit_single by lia. do 2 f_equal. lia.
Qed.

Lemma ibm_encode_run (n : Z) (message : list Z) (qc : QuantumCircuit) :
  IBM.encode n message qc
  = (extend qc (encode_spec message n),
     Z.of_nat (Nat.min (Z.to_nat n) (8 * List.length message))).
Proof.
  unfold IBM.encode. induction message as [|b pre IH] using rev_ind.
  - cbn [fold_left]. unfold encode_spec. cbn [List.length].
    rewrite Nat.mul_0_r, Nat.min_0_r. cbn [seq filter map].
    rewrite extend_nil. reflexivity.
  - rewrite fold_left_app. cbn [fold_left]. rewrite IH.
    change (range 8) with (map Z.of_nat (seq 0 8)).
    rewrite encode_byte_run, extend_extend, <- encode_spec_snoc.
    f_equal. rewrite length_app. cbn [List.length]. lia.
Qed.

Lemma message_bits_length (msg : list Z) :
  List.length (Notebook.message_bits msg) = (8 * List.length msg)%nat.
Proof.
  unfold Notebook.message_bits. induction msg as [|b msg IH]; [reflexivity|].
  cbn [flat_map]. rewrite length_app, IH, length_map, range_length.
  cbn [List.length]. lia.
Qed.

Lemma byte_bits_nth (b : Z) (j : nat) :
  (j < 8)%nat ->
  nth j (map (fun i => Z.land (Z.shiftr b i) 1) (range 8)) 0
  = Z.land (Z.shiftr b (Z.of_nat j)) 1.
Proof.
  intros Hj. do 8 (destruct j as [|j]; [reflexivity|]). lia.
Qed.

Lemma message_bits_nth (msg : list Z) (j : nat) :
  (j < 8 * List.length msg)%nat ->
  nth j (Notebook.message_bits msg) 0 = Z.b2z (message_bit msg j).
Proof.
  revert j. induction msg as [|b msg IH]; intros j Hj.
  - simpl in Hj. lia.
  - unfold Notebook.message_bits. cbn [flat_map].
    fold (Notebook.message_bits msg).
    destruct (Nat.lt_ge_cases j 8) as [Hlt|Hge].
    + rewrite app_nth1 by (rewrite length_map, range_length; exact Hlt).
      rewrite byte_bits_nth, bit_test by lia.
      change (b :: msg) with ([b] ++ msg).
      rewrite message_bit_app_l by (simpl; lia).
      rewrite message_bit_single by exact Hlt. reflexivity.
    + rewrite app_nth2 by (rewrite length_map, range_length; exact Hge).
      rewrite length_map, range_length.
      change (Z.to_nat 8) with 8%nat.
      cbn [List.length] in Hj. rewrite IH by lia.
      change (b :: msg) with ([b] ++ msg).
      rewrite message_bit_app_r by (simpl; lia). reflexivity.
Qed.

Lemma set_bits_run (n : Z) (bits : list Z) (a : nat) (qc : QuantumCircuit) :
  Notebook.set_bits n (combine (map Z.of_nat (seq a (List.length bits))) bits) qc
  = extend qc
      (map (fun j => X (Z.of_nat j))
           (filter (fun j => negb (nth (j - a) bits 0 =? 0))
                   (seq a (Nat.min (List.length bits) (Z.to_nat n - a))))).
Proof.
  revert a qc. induction bits as [|bit bits IH]; intros a qc.
  - cbn. rewrite extend_nil. reflexivity.
  - cbn [List.length seq map combine Notebook.set_bits].
    destruct (Z.geb_spec (Z.of_nat a) n) as [Hge|Hlt].
    + replace (Z.to_nat n - a)%nat with O by lia.
      rewrite Nat.min_0_r. cbn. rewrite extend_nil. reflexivity.
    + replace (Nat.min (S (List.length bits)) (Z.to_nat n - a))
        with (S (Nat.min (List.length bits) (Z.to_nat n - S a))) by lia.
      cbn [seq filter]. rewrite Nat.sub_diag. cbn [nth].
      rewrite (filter_ext_seq _ (fun j => negb (nth (j - S a) bits 0 =? 0))).
      2:{ intros j Hj. replace (j - a)%nat with (S (j - S a)) by lia.
          reflexivity. }
      rewrite IH. destruct (bit =? 0); cbn [negb map].
      * reflexivity.
      * rewrite append_extend, extend_extend. reflexivity.
Qed.

Lemma notebook_encode_run (msg : list Z) (n : Z) :
  Notebook.encode_message msg n
  = (if n <? 0 then Raise size_error
     else Ok (mkCircuit n n (encode_spec msg n))).
Proof.
  unfold Notebook.encode_message, new_circuit.
  destruct (n <? 0); [reflexivity|]. f_equal.
  unfold Notebook.enumerate, range.
  rewrite Nat2Z.id, set_bits_run, message_bits_length.
  unfold encode_spec, extend, empty_circuit. cbn [data num_qubits num_clbits app].
  rewrite Nat.sub_0_r, (Nat.min_comm (Z.to_nat n)).
  do 2 f_equal. apply filter_ext_seq. intros j Hj.
  rewrite Nat.sub_0_r, message_bits_nth by lia.
  destruct (message_bit msg j); reflexivity.
Qed.

Lemma measure_range (n : Z) (qc : QuantumCircuit) :
  measure qc (range n) (range n) = extend qc (measure_all n).
Proof.
  unfold measure, extend, measure_all. do 2 f_equal.
  induction (range n) as [|q l IH]; [reflexivity|].
  cbn [combine map fst snd]. rewrite IH. reflexivity.
Qed.

(** ** The built circuits *)

Section Built.
Context {G : Generator}.

(** The outcome of [IBM.build_random_circuit] on every input: the seed is
    checked first (line 69), then the register size (line 70). *)
Lemma ibm_build_run (n depth seed : Z) (message : list Z) (h : heap) :
  IBM.build_random_circuit n depth seed message h
  = if seed <? 0 then Some (Raise seed_error, h)
    else if n <? 0 then Some (Raise size_error, h ++ [default_rng seed])
    else Some (Ok (mkCircuit n n (encode_spec message n
                                  ++ layers_spec 1 0 seed n depth
                                  ++ measure_all n)),
               h ++ [advance (2 * (Z.to_nat depth * Z.to_nat n))
                             (default_rng seed)]).
Proof.
  unfold IBM.build_random_circuit, bind at 1, new_default_rng.
  destruct (seed <? 0); [reflexivity|].
  unfold bind at 1, lift, new_circuit.
  destruct (n <? 0); [reflexivity|].
  rewrite ibm_encode_run. cbn [fst]. unfold bind.
  rewrite layers_from_seed. unfold ret.
  rewrite measure_range, !extend_extend. reflexivity.
Qed.

Lemma notebook_build_run (n depth seed : Z) (h : heap) :
  Notebook.build_random_circuit n depth seed h
  = if seed <? 0 then Some (Raise seed_error, h)
    else if n <? 0 then Some (Raise size_error, h ++ [default_rng seed])
    else Some (Ok (mkCircuit n n (layers_spec 1 0 seed n depth)),
               h ++ [advance (2 * (Z.to_nat depth * Z.to_nat n))
                             (default_rng seed)]).
Proof.
  unfold Notebook.build_random_circuit, bind at 1, new_default_rng.
  destruct (seed <? 0); [reflexivity|].
  unfold bind at 1, lift, new_circuit.
  destruct (n <? 0); [reflexivity|].
  rewrite layers_from_seed. reflexivity.
Qed.

(** The notebook builds the encoding circuit first (line 53): there the
    register size is checked before the seed. *)
Lemma notebook_main_run (msg : list Z) (n d s : Z) (h : heap) :
  Notebook.main_circuit msg n d s h
  = if n <? 0 then Some (Raise size_error, h)
    else if s <? 0 then Some (Raise seed_error, h)
    else Some (Ok (mkCircuit n n (encode_spec msg n ++ layers_spec 1 0 s n d
                                  ++ measure_all n)),
               h ++ [advance (2 * (Z.to_nat d * Z.to_nat n)) (default_rng s)]).
Proof.
  unfold Notebook.main_circuit, bind at 1, lift.
  rewrite notebook_encode_run.
  destruct (n <? 0) eqn:En; [reflexivity|].
  unfold bind at 1. rewrite notebook_build_run, En.
  destruct (s <? 0); [reflexivity|].
  unfold bind, lift, new_circuit. rewrite En. unfold ret.
  rewrite measure_range.
  unfold compose, extend, empty_circuit.
  cbn [data num_qubits num_clbits app]. rewrite <- app_assoc. reflexivity.
Qed.

End Built.

(** ** Shape of the instruction lists *)

Lemma encode_spec_in (message : list Z) (n q : Z) :
  In (X q) (encode_spec message n)
  <-> 0 <= q < n /\ q < 8 * Z.of_nat (List.length message)
      /\ message_bit message (Z.to_nat q) = true.
Proof.
  unfold encode_spec. rewrite in_map_iff. split.
  - intros [j [Hj Hin]]. injection Hj as <-.
    apply filter_In in Hin. destruct Hin as [Hin Hbit].
    apply in_seq in Hin. rewrite Nat2Z.id. repeat split; try lia. exact Hbit.
  - intros [Hq [Hlen Hbit]]. exists (Z.to_nat q). split.
    + f_equal. lia.
    + apply filter_In. split; [|exact Hbit]. apply in_seq. lia.
Qed.

(** Every member of [map f l] is some [f a]: goals [Forall P (map f l)] are
    reduced to [P (f a)]. *)
Ltac each_mapped a Ha :=
  apply Forall_forall;
  let i := fresh "i" in
  let Hi := fresh "Hi" in
  intros i Hi; apply in_map_iff in Hi; destruct Hi as [a [<- Ha]].

Lemma encode_spec_all_x (message : list Z) (n : Z) :
  Forall (fun i => is_x i = true) (encode_spec message n).
Proof.
  unfold encode_spec. each_mapped j Hj. reflexivity.
Qed.

Lemma cx_pairs_app (l1 l2 : list instruction) :
  cx_pairs (l1 ++ l2) = cx_pairs l1 ++ cx_pairs l2.
Proof.
  induction l1 as [|i l1 IH]; [reflexivity|].
  destruct i; simpl; rewrite IH; reflexivity.
Qed.




Section Shape.
Context {G : Generator}.




Lemma no_x_in_layers_spec (zi xi : nat) (seed n depth : Z) :
  Forall (fun i => is_x i = false) (layers_spec zi xi seed n depth).
Proof.
  unfold layers_spec. apply Forall_flat_map, Forall_forall. intros l _.
  apply Forall_app. split.
  - unfold rotation_block. apply Forall_flat_map, Forall_forall. intros q _.
    repeat constructor.
  - unfold entangling. rewrite !Forall_app. repeat split.
    + each_mapped q Hq. reflexivity.
    + each_mapped q Hq. reflexivity.
    + destruct (2 <? n); repeat constructor.
Qed.

Lemma angles_in_layers_spec (zi xi : nat) (seed n depth : Z) :
  Forall angle_in_turn (layers_spec zi xi seed n depth).
Proof.
  assert (Hs : forall k, (0 <= scaled (draw (default_rng seed) k) < 2 * PI)%R).
  { intros k. unfold scaled, draw.
    pose proof (random_unit (advance k (default_rng seed))) as Hu.
    pose proof PI_RGT_0 as Hpi. split; nra. }
  unfold layers_spec. apply Forall_flat_map, Forall_forall. intros l _.
  apply Forall_app. split.
  - unfold rotation_block. apply Forall_flat_map, Forall_forall. intros q _.
    constructor; [apply Hs|]. constructor; [apply Hs|]. constructor.
  - unfold entangling. rewrite !Forall_app. repeat split.
    + each_mapped q Hq. exact I.
    + each_mapped q Hq. exact I.
    + destruct (2 <? n); repeat constructor.
Qed.

End Shape.

Lemma angles_in_encode_spec (message : list Z) (n : Z) :
  Forall angle_in_turn (encode_spec message n).
Proof.
  unfold encode_spec. each_mapped j Hj. exact I.
Qed.

Lemma range_in (m q : Z) : In q (range m) <-> 0 <= q < m.
Proof.
  unfold range. rewrite in_map_iff. split.
  - intros [j [<- Hj]]. apply in_seq in Hj. lia.
  - intros Hq. exists (Z.to_nat q). split; [lia|]. apply in_seq. lia.
Qed.

Lemma register_encode_spec (message : list Z) (n : Z) :
  Forall (in_register n) (encode_spec message n).
Proof.
  unfold encode_spec. each_mapped j Hj.
  apply filter_In in Hj. destruct Hj as [Hj _]. apply in_seq in Hj.
  constructor; [lia | constructor].
Qed.

Lemma register_entangling (n : Z) : Forall (in_register n) (entangling n).
Proof.
  unfold entangling. rewrite !Forall_app. repeat split.
  - each_mapped q Hq. apply filter_In in Hq. destruct Hq as [Hq _].
    apply range_in in Hq. repeat constructor; lia.
  - each_mapped q Hq. apply filter_In in Hq. destruct Hq as [Hq _].
    apply range_in in Hq. repeat constructor; lia.
  - destruct (Z.ltb_spec 2 n) as [H|H]; repeat constructor; lia.
Qed.

Lemma register_measure_all (n : Z) : Forall (in_register n) (measure_all n).
Proof.
  unfold measure_all. each_mapped q Hq. apply range_in in Hq.
  repeat constructor; lia.
Qed.

Section Register.
Context {G : Generator}.

Lemma register_layers_spec (zi xi : nat) (seed n depth : Z) :
  Forall (in_register n) (layers_spec zi xi seed n depth).
Proof.
  unfold layers_spec. apply Forall_flat_map, Forall_forall. intros l _.
  apply Forall_app. split; [|apply register_entangling].
  unfold rotation_block. apply Forall_flat_map, Forall_forall. intros q Hq.
  apply in_seq in Hq. repeat constructor; lia.
Qed.

Lemma register_circuit (zi xi : nat) (message : list Z) (seed n depth : Z) :
  Forall (in_register n)
         (encode_spec message n ++ layers_spec zi xi seed n depth
          ++ measure_all n).
Proof.
  rewrite !Forall_app. repeat split.
  - apply register_encode_spec.
  - apply register_layers_spec.
  - apply register_measure_all.
Qed.

End Register.

(** * Main theorems on the circuit builders *)

(** C2. Both encoders append [X i] exactly for the bit indices
    [i < min(n, 8 * len(message))] whose message bit is 1, in ascending
    order, where bit [i] of the message is bit [i mod 8] (least significant
    first) of byte [i / 8]; the running index of [rqc_hash_ibm.py] ends at
    that minimum; and the three byte strings 01, 80 and ff ff set qubit 0,
    qubit 7 and qubits 0 to 3.  [encode_message] builds its own circuit and
    so raises CircuitError when [n] is negative. *)
Theorem C2_message_encoding (message : list Z) (n : Z) :
  (forall qc,
      IBM.encode n message qc
      = (extend qc (encode_spec message n),
         Z.of_nat (Nat.min (Z.to_nat n) (8 * List.length message))))
  /\ Notebook.encode_message message n
     = (if n <? 0 then Raise size_error
        else Ok (mkCircuit n n (encode_spec message n)))
  /\ (forall q, In (X q) (encode_spec message n)
                <-> 0 <= q < n /\ q < 8 * Z.of_nat (List.length message)
                    /\ message_bit message (Z.to_nat q) = true)
  /\ Forall (fun i => is_x i = true) (encode_spec message n)
  /\ data (fst (IBM.encode 8 [1] (empty_circuit 8))) = [X 0]
  /\ data (fst (IBM.encode 8 [128] (empty_circuit 8))) = [X 7]
  /\ data (fst (IBM.encode 4 [255; 255] (empty_circuit 4))) = [X 0; X 1; X 2; X 3]
  /\ Notebook.encode_message [1] 8 = Ok (mkCircuit 8 8 [X 0])
  /\ Notebook.encode_message [128] 8 = Ok (mkCircuit 8 8 [X 7])
  /\ Notebook.encode_message [255; 255] 4
     = Ok (mkCircuit 4 4 [X 0; X 1; X 2; X 3]).
Proof.
  split; [intros qc; apply ibm_encode_run|].
  split; [apply notebook_encode_run|].
  split; [intros q; apply encode_spec_in|].
  split; [apply encode_spec_all_x|].
  repeat split; vm_compute; reflexivity.
Qed.

Lemma no_x_in_measure_all (n : Z) :
  Forall (fun i => is_x i = false) (measure_all n).
Proof. unfold measure_all. each_mapped q Hq. reflexivity. Qed.

Lemma angles_in_measure_all (n : Z) : Forall angle_in_turn (measure_all n).
Proof. unfold measure_all. each_mapped q Hq. exact I. Qed.

(** Runs a builder by its run lemma and splits on the two checks: the seed
    and the register size. *)
Ltac built seed n :=
  rewrite ?ibm_build_run, ?notebook_build_run, ?notebook_main_run;
  destruct (Z.ltb_spec seed 0); [| destruct (Z.ltb_spec n 0)];
  do 2 eexists; (split; [reflexivity|]); cbn beta iota.

Section Claims.
Context {G : Generator}.

(** C3 (as the code has it). In every layer, for each qubit [q] in ascending
    order, two values are drawn in sequence from the stream of
    [default_rng(seed)]: qubit [q] of layer [l] takes draws [2 (l N + q)] and
    [2 (l N + q) + 1].  The first, times 2 pi, is the X-axis angle and the
    second, times 2 pi, is the Z-axis angle; both lie in [0, 2 pi); [RZ] with
    the second is appended before [RX] with the first.  The builder raises
    only on a negative seed or a negative qubit count. *)
Theorem C3_rotation_draws (n depth seed : Z) (message : list Z) (h : heap) :
  (exists r h',
      IBM.build_random_circuit n depth seed message h = Some (r, h')
      /\ match r with
         | Ok qc =>
             data qc = encode_spec message n ++ layers_spec 1 0 seed n depth
                       ++ measure_all n
             /\ Forall angle_in_turn (data qc)
         | Raise _ => seed < 0 \/ n < 0
         end)
  /\ (exists r h',
         Notebook.build_random_circuit n depth seed h = Some (r, h')
         /\ match r with
            | Ok rqc =>
                data rqc = layers_spec 1 0 seed n depth
                /\ Forall angle_in_turn (data rqc)
            | Raise _ => seed < 0 \/ n < 0
            end)
  /\ (forall (g : rng_state) (N l : nat),
         rotation_block 1 0 g N l
         = flat_map
             (fun q => [RZ (draw g (2 * (l * N + q) + 1) * 2 * PI) (Z.of_nat q);
                        RX (draw g (2 * (l * N + q)) * 2 * PI) (Z.of_nat q)])
             (seq 0 N)).
Proof.
  split; [|split].
  - built seed n; [left; lia | right; lia |].
    split; [reflexivity|]. cbn [data].
    rewrite !Forall_app. repeat split.
    + apply angles_in_encode_spec.
    + apply angles_in_layers_spec.
    + apply angles_in_measure_all.
  - built seed n; [left; lia | right; lia |].
    split; [reflexivity|]. cbn [data].
    apply angles_in_layers_spec.
  - intros g N l. unfold rotation_block, scaled.
    apply flat_map_ext. intros q. rewrite Nat.add_0_r. reflexivity.
Qed.


(** C8. Two calls with the same qubit count, depth and seed (and message),
    the second made in the process state the first one left, have the same
    outcome: the same circuit when the seed and the qubit count are not
    negative, the same exception otherwise; the outcome does not depend on
    the Generator objects that exist when the call is made. *)
Theorem C8_generate_twice (n depth seed : Z) (message : list Z) (h : heap) :
  (exists r h1 h2,
      IBM.build_random_circuit n depth seed message h = Some (r, h1)
      /\ IBM.build_random_circuit n depth seed message h1 = Some (r, h2)
      /\ match r with
         | Ok _ => 0 <= seed /\ 0 <= n
         | Raise _ => seed < 0 \/ n < 0
         end)
  /\ (exists r h1 h2,
         Notebook.build_random_circuit n depth seed h = Some (r, h1)
         /\ Notebook.build_random_circuit n depth seed h1 = Some (r, h2)
         /\ match r with
            | Ok _ => 0 <= seed /\ 0 <= n
            | Raise _ => seed < 0 \/ n < 0
            end)
  /\ (forall h0 : heap,
         option_map fst (IBM.build_random_circuit n depth seed message h0)
         = option_map fst (IBM.build_random_circuit n depth seed message h)).
Proof.
  split; [|split].
  - setoid_rewrite ibm_build_run.
    destruct (Z.ltb_spec seed 0); [| destruct (Z.ltb_spec n 0)];
      do 3 eexists; (split; [reflexivity|]); (split; [reflexivity|]);
      cbn beta iota; lia.
  - setoid_rewrite notebook_build_run.
    destruct (Z.ltb_spec seed 0); [| destruct (Z.ltb_spec n 0)];
      do 3 eexists; (split; [reflexivity|]); (split; [reflexivity|]);
      cbn beta iota; lia.
  - intros h0. rewrite !ibm_build_run.
    destruct (seed <? 0); [reflexivity|]. destruct (n <? 0); reflexivity.
Qed.

(** C9. Every instruction of a built circuit touches only qubits in
    [0, n): the circuit of [rqc_hash_ibm.py], the composed circuit of the
    notebook script and its encoding circuit, for every depth and message;
    a circuit is built whenever the seed and the qubit count are not
    negative. *)
Theorem C9_qubits_in_register (n depth seed : Z) (message : list Z) (h : heap) :
  (exists r h',
      IBM.build_random_circuit n depth seed message h = Some (r, h')
      /\ match r with
         | Ok qc => num_qubits qc = n /\ Forall (in_register n) (data qc)
         | Raise _ => seed < 0 \/ n < 0
         end)
  /\ (exists r h',
         Notebook.main_circuit message n depth seed h = Some (r, h')
         /\ match r with
            | Ok qc => num_qubits qc = n /\ Forall (in_register n) (data qc)
            | Raise _ => seed < 0 \/ n < 0
            end)
  /\ match Notebook.encode_message message n with
     | Ok enc => num_qubits enc = n /\ Forall (in_register n) (data enc)
     | Raise _ => n < 0
     end.
Proof.
  split; [|split].
  - built seed n; [left; lia | right; lia |].
    split; [reflexivity|]. apply register_circuit.
  - rewrite notebook_main_run.
    destruct (Z.ltb_spec n 0); [| destruct (Z.ltb_spec seed 0)];
      do 2 eexists; (split; [reflexivity|]); cbn beta iota;
      [right; lia | left; lia |].
    split; [reflexivity|]. apply register_circuit.
  - rewrite notebook_encode_run. destruct (Z.ltb_spec n 0); [lia|].
    split; [reflexivity|]. apply register_encode_spec.
Qed.

(** C10. For every qubit count, depth and seed there is one instruction
    list, free of [X], that follows the encoding prefix of the built circuit
    whatever the message; the prefix holds only [X] instructions; the
    Generator object is left after the same number of draws for every
    message; and whether the builder raises does not depend on the
    message. *)
Theorem C10_layers_independent_of_message (n depth seed : Z) :
  exists (tail : list instruction) (g : rng_state),
    Forall (fun i => is_x i = false) tail
    /\ forall (message : list Z) (h : heap),
        exists r h',
          IBM.build_random_circuit n depth seed message h = Some (r, h')
          /\ match r with
             | Ok qc =>
                 0 <= seed /\ 0 <= n /\ h' = h ++ [g]
                 /\ data qc = encode_spec message n ++ tail
                 /\ Forall (fun i => is_x i = true) (encode_spec message n)
             | Raise _ => seed < 0 \/ n < 0
             end.
Proof.
  exists (layers_spec 1 0 seed n depth ++ measure_all n).
  exists (advance (2 * (Z.to_nat depth * Z.to_nat n)) (default_rng seed)).
  split.
  - apply Forall_app. split; [apply no_x_in_layers_spec|].
    apply no_x_in_measure_all.
  - intros message h. built seed n; [left; lia | right; lia |].
    repeat split; try lia. apply encode_spec_all_x.
Qed.

End Claims.

(** ** Worked examples on the stand-in stream *)

Lemma harmonic_first_layer :
  exists h',
    @IBM.build_random_circuit harmonic_rng 1 1 0 [] []
    = Some (Ok (mkCircuit 1 1 [RZ (/ 3 * 2 * PI) 0; RX (/ 2 * 2 * PI) 0;
                               Measure 0 0]), h').
Proof.
  eexists. rewrite ibm_build_run.
  unfold layers_spec, rotation_block, encode_spec, measure_all, range, scaled, draw.
  change (Z.to_nat 1) with 1%nat. cbn.
  replace (1 + 1 + 1)%R with 3%R by lra. replace (1 + 1)%R with 2%R by lra.
  reflexivity.
Qed.

(** C3, counterexample. With one qubit, one layer and the stream whose first
    two draws are 1/2 and 1/3, the Z-axis angle is 2 pi / 3 (second draw) and
    the X-axis angle is 2 pi / 2 (first draw). *)
Lemma C3_first_draw_is_x_angle :
  (exists h',
      @IBM.build_random_circuit harmonic_rng 1 1 0 [] []
      = Some (Ok (mkCircuit 1 1 [RZ (/ 3 * 2 * PI) 0; RX (/ 2 * 2 * PI) 0;
                                 Measure 0 0]), h'))
  /\ ~ z_angle_drawn_first harmonic_rng 1 1 0 [] [].
Proof.
  split; [exact harmonic_first_layer|].
  intros [qc [h' [Hrun Hdata]]].
  destruct harmonic_first_layer as [h1 Hrun1].
  rewrite Hrun1 in Hrun. injection Hrun as <- _.
  cbn [data] in Hdata.
  unfold layers_spec, rotation_block, encode_spec, measure_all, range, scaled, draw
    in Hdata.
  change (Z.to_nat 1) with 1%nat in Hdata. cbn in Hdata.
  injection Hdata as Hz _.
  pose proof PI_RGT_0. nra.
Qed.


(** * Further properties *)

(** ** Evaluator selection: every path *)

Section SelectPaths.
Import IBMMain.
Variable caps : capabilities.
Variable sv : services.
Variable qc : QuantumCircuit.
Variable backend_name : string.
Variable runtime_mode : runtime_choice.
Variables shots resilience : Z.

(** Splits the selection into its paths: the flags, the mode and the outcome
    of each service call that the path makes. *)
Ltac select_paths :=
  unfold select_and_run, run_on_aer, pbind, pret, call, print, try_except;
  destruct (String.eqb_spec backend_name "");
  destruct runtime_mode;
  destruct (runtime_available caps);
  destruct (backend_mode_is_provider caps);
  destruct (aer_available caps);
  cbn [in_auto_cloud in_auto_provider_cloud is_provider andb orb];
  repeat match goal with
         | |- context [run_on_ibm_runtime ?s ?q ?b ?n ?r] =>
             destruct (run_on_ibm_runtime s q b n r)
         | |- context [run_on_ibm_provider ?s ?q ?b ?n] =>
             destruct (run_on_ibm_provider s q b n)
         | |- context [aer_backend_run ?s ?q ?n] =>
             destruct (aer_backend_run s q n)
         end.

(** X1. The provenance that [main] reports names the evaluator whose counts
    are returned: with it come the flag, the mode and the call that the path
    needs. *)
Theorem select_provenance_sound (out out' : list line)
    (counts : IBMDigest.counts_dict) (mode : provenance) :
  select_and_run caps sv qc backend_name runtime_mode shots resilience out
  = (out', Ok (counts, mode)) ->
  match mode with
  | AerSimulator => run_on_aer caps sv qc shots = Ok counts
  | IBMRuntime b r =>
      b = backend_name /\ r = resilience /\ backend_name <> ""%string
      /\ runtime_available caps = true /\ in_auto_cloud runtime_mode = true
      /\ run_on_ibm_runtime sv qc backend_name shots resilience = Ok counts
  | IBMProvider b =>
      b = backend_name /\ backend_name <> ""%string
      /\ backend_mode_is_provider caps = true /\ runtime_mode <> RtEmpty
      /\ run_on_ibm_provider sv qc backend_name shots = Ok counts
  end.
Proof.
  select_paths; intros H; inversion H; subst; clear H;
    repeat split; try reflexivity; try assumption; try discriminate.
Qed.

(** X2. An exception that leaves the selection was raised by the local
    evaluator or by the provider call; the exception of a failed runtime
    attempt is never the outcome by itself. *)
Theorem select_failure_origin (out out' : list line) (e : exn) :
  select_and_run caps sv qc backend_name runtime_mode shots resilience out
  = (out', Raise e) ->
  run_on_aer caps sv qc shots = Raise e
  \/ (backend_name <> ""%string /\ backend_mode_is_provider caps = true
      /\ runtime_mode <> RtEmpty
      /\ run_on_ibm_provider sv qc backend_name shots = Raise e).
Proof.
  select_paths; intros H; inversion H; subst; clear H;
    try (left; reflexivity);
    right; repeat split; try assumption; try discriminate.
Qed.

(** X3. Without the provider package, and with a local evaluator that is
    installed and answers, the selection returns counts for every backend
    name and mode, whatever the runtime service does. *)
Theorem select_total_without_provider (out : list line)
    (c : IBMDigest.counts_dict) :
  backend_mode_is_provider caps = false ->
  aer_available caps = true ->
  aer_backend_run sv qc shots = Ok c ->
  exists out' counts mode,
    select_and_run caps sv qc backend_name runtime_mode shots resilience out
    = (out', Ok (counts, mode))
    /\ (mode = AerSimulator /\ counts = c
        \/ mode = IBMRuntime backend_name resilience).
Proof.
  intros Hp Ha Hc.
  unfold select_and_run, run_on_aer, pbind, pret, call, print, try_except.
  rewrite Hp, Ha, Hc.
  destruct (String.eqb_spec backend_name ""); destruct runtime_mode;
    destruct (runtime_available caps);
    cbn [in_auto_cloud in_auto_provider_cloud is_provider andb orb];
    try destruct (run_on_ibm_runtime sv qc backend_name shots resilience);
    do 3 eexists; (split; [reflexivity|]); auto.
Qed.

(** X4. With a backend name, the warning line is printed exactly when the
    counts come from the local evaluator: a fall-back is always visible in
    the output. *)
Theorem select_warning_iff_fallback (lines : list line)
    (counts : IBMDigest.counts_dict) (mode : provenance) :
  backend_name <> ""%string ->
  select_and_run caps sv qc backend_name runtime_mode shots resilience []
  = (lines, Ok (counts, mode)) ->
  (In WarningUsingAer lines <-> mode = AerSimulator).
Proof.
  intros Hne. select_paths; try contradiction;
    intros H; inversion H; subst; clear H; cbn;
    (split; [intros Hin | intros Hm]);
    try discriminate; try reflexivity; try tauto;
    repeat (destruct Hin as [Hin|Hin]; try discriminate); try contradiction.
Qed.

End SelectPaths.

Lemma select_provenance_sound_witness :
  let e := ServiceError "unreachable" in
  let c := [("0"%string, 1)] in
  IBMMain.select_and_run runtime_and_aer_only (remote_down e c)
    (empty_circuit 1) "ibm_osaka" IBMMain.RtCloud 8 0 []
  = ([IBMMain.RuntimeFailedFallingBack e; IBMMain.ProviderNotAvailable;
      IBMMain.WarningUsingAer], Ok (c, IBMMain.AerSimulator))
  /\ IBMMain.run_on_aer runtime_and_aer_only (remote_down e c) (empty_circuit 1) 8
     = Ok c.
Proof.
  intros e c. split; [reflexivity|].
  exact (select_provenance_sound runtime_and_aer_only (remote_down e c)
           (empty_circuit 1) "ibm_osaka" IBMMain.RtCloud 8 0 [] _ c
           IBMMain.AerSimulator eq_refl).
Defined.

Lemma select_failure_origin_witness :
  let e := ServiceError "unreachable" in
  let c := [("0"%string, 1)] in
  IBMMain.select_and_run all_installed (remote_down e c)
    (empty_circuit 1) "ibm_osaka" IBMMain.RtProvider 8 0 [] = ([], Raise e)
  /\ (IBMMain.run_on_aer all_installed (remote_down e c) (empty_circuit 1) 8
      = Raise e
      \/ ("ibm_osaka"%string <> ""%string
          /\ IBMMain.backend_mode_is_provider all_installed = true
          /\ IBMMain.RtProvider <> IBMMain.RtEmpty
          /\ IBMMain.run_on_ibm_provider (remote_down e c) (empty_circuit 1)
               "ibm_osaka" 8 = Raise e)).
Proof.
  intros e c. split; [reflexivity|].
  exact (select_failure_origin all_installed (remote_down e c)
           (empty_circuit 1) "ibm_osaka" IBMMain.RtProvider 8 0 [] [] e eq_refl).
Defined.

Lemma select_total_without_provider_witness :
  let e := ServiceError "unreachable" in
  let c := [("0"%string, 1)] in
  IBMMain.backend_mode_is_provider runtime_and_aer_only = false
  /\ IBMMain.aer_available runtime_and_aer_only = true
  /\ IBMMain.aer_backend_run (remote_down e c) (empty_circuit 1) 8 = Ok c
  /\ exists out' counts mode,
       IBMMain.select_and_run runtime_and_aer_only (remote_down e c)
         (empty_circuit 1) "ibm_osaka" IBMMain.RtAuto 8 0 []
       = (out', Ok (counts, mode))
       /\ (mode = IBMMain.AerSimulator /\ counts = c
           \/ mode = IBMMain.IBMRuntime "ibm_osaka" 0).
Proof.
  intros e c. repeat split.
  exact (select_total_without_provider runtime_and_aer_only (remote_down e c)
           (empty_circuit 1) "ibm_osaka" IBMMain.RtAuto 8 0 [] c
           eq_refl eq_refl eq_refl).
Defined.

Lemma select_warning_iff_fallback_witness :
  let e := ServiceError "unreachable" in
  let c := [("0"%string, 1)] in
  "ibm_osaka"%string <> ""%string
  /\ (In IBMMain.WarningUsingAer
         [IBMMain.RuntimeFailedFallingBack e; IBMMain.ProviderNotAvailable;
          IBMMain.WarningUsingAer]
      <-> IBMMain.AerSimulator = IBMMain.AerSimulator).
Proof.
  intros e c.
  assert (Hne : "ibm_osaka"%string <> ""%string) by discriminate.
  split; [exact Hne|].
  exact (select_warning_iff_fallback runtime_and_aer_only (remote_down e c)
           (empty_circuit 1) "ibm_osaka" IBMMain.RtCloud 8 0 _ c
           IBMMain.AerSimulator Hne eq_refl).
Defined.

(** ** Digest: selection and decoding *)

(** X5. A key whose count is strictly greater than every other count is the
    one selected, wherever it sits in the distribution. *)
Theorem strict_maximum_is_selected (counts : IBMDigest.counts_dict)
    (k : string) (c : Z) :
  In (k, c) counts ->
  (forall kv, In kv counts -> kv = (k, c) \/ snd kv < c) ->
  IBMDigest.most_frequent_bitstring counts = k.
Proof.
  intros Hin Hmax. destruct counts as [|kv items]; [contradiction|].
  cbn [IBMDigest.most_frequent_bitstring].
  destruct (max_by_count_split items kv) as [before [after [Heq [Hb Ha]]]].
  set (r := IBMDigest.max_by_count kv items) in *.
  assert (Hr : In r (kv :: items)).
  { rewrite Heq. apply in_or_app. right. left. reflexivity. }
  destruct (Hmax r Hr) as [-> | Hlt]; [reflexivity|].
  exfalso. rewrite Heq in Hin. apply in_app_or in Hin.
  destruct Hin as [Hin|[Hin|Hin]].
  - rewrite Forall_forall in Hb. specialize (Hb _ Hin). simpl in Hb. lia.
  - rewrite Hin in Hlt. simpl in Hlt. lia.
  - rewrite Forall_forall in Ha. specialize (Ha _ Hin). simpl in Ha. lia.
Qed.

Lemma strict_maximum_is_selected_witness :
  IBMDigest.most_frequent_bitstring
    [("00"%string, 3); ("01"%string, 1); ("11"%string, 9); ("10"%string, 3)]
  = "11"%string.
Proof.
  apply (strict_maximum_is_selected _ "11" 9).
  - right. right. left. reflexivity.
  - intros kv [H|[H|[H|[H|[]]]]]; subst kv; simpl; auto; right; lia.
Defined.

Lemma bit_weight_inj (c1 c2 : ascii) :
  is_bit c1 = true -> is_bit c2 = true ->
  bit_weight c1 = bit_weight c2 -> c1 = c2.
Proof.
  unfold is_bit, bit_weight. intros H1 H2 H.
  destruct (Ascii.eqb_spec c1 "1"), (Ascii.eqb_spec c2 "1");
    try congruence; try discriminate.
  rewrite orb_false_r in H1, H2.
  apply Ascii.eqb_eq in H1, H2. congruence.
Qed.

Lemma unsigned_binary_inj (l1 l2 : list ascii) :
  forallb is_bit l1 = true -> forallb is_bit l2 = true ->
  List.length l1 = List.length l2 ->
  unsigned_binary l1 = unsigned_binary l2 -> l1 = l2.
Proof.
  revert l2. induction l1 as [|c1 l1 IH]; intros [|c2 l2] H1 H2 Hlen Hv;
    try discriminate; [reflexivity|].
  cbn [forallb] in H1, H2. apply andb_prop in H1, H2.
  destruct H1 as [Hc1 H1], H2 as [Hc2 H2].
  injection Hlen as Hlen. cbn [unsigned_binary] in Hv. rewrite Hlen in Hv.
  pose proof (unsigned_binary_bound l1) as B1. rewrite Hlen in B1.
  pose proof (unsigned_binary_bound l2) as B2.
  assert (Hw : bit_weight c1 = bit_weight c2).
  { unfold bit_weight in *.
    destruct (c1 =? "1")%char, (c2 =? "1")%char; try reflexivity; lia. }
  rewrite (bit_weight_inj c1 c2 Hc1 Hc2 Hw). f_equal.
  apply IH; try assumption. rewrite Hw in Hv. lia.
Qed.

Lemma to_hash_hex_value (s d : string) (n : Z) :
  s <> ""%string -> is_bit_pattern s = true ->
  IBMDigest.to_hash_hex s n = Ok d ->
  hex_value (list_ascii_of_string d)
  = Some (unsigned_binary (rev (list_ascii_of_string s))).
Proof.
  intros Hne Hbits. unfold IBMDigest.to_hash_hex.
  destruct (String.eqb_spec s "") as [E|_]; [contradiction|].
  rewrite (int_base2_bit_pattern s Hne Hbits). unfold format_0wx.
  destruct (ceil_quarter n <? 0); [discriminate|].
  pose proof (unsigned_binary_bound (rev (list_ascii_of_string s))) as B.
  destruct (Z.ltb_spec (unsigned_binary (rev (list_ascii_of_string s))) 0)
    as [Hneg|_]; [lia|].
  intros Hd. injection Hd as <-.
  rewrite list_ascii_of_string_of_list_ascii. unfold zero_fill.
  rewrite hex_value_zeros. apply format_x_value. lia.
Qed.

(** X6. The digest determines the bit-pattern among bit-patterns of one
    length: two bit-patterns with the same number of characters and the same
    digest are equal. *)
Theorem digest_determines_bit_pattern (s1 s2 d : string) (n : Z) :
  is_bit_pattern s1 = true -> is_bit_pattern s2 = true ->
  String.length s1 = String.length s2 ->
  IBMDigest.to_hash_hex s1 n = Ok d -> IBMDigest.to_hash_hex s2 n = Ok d ->
  s1 = s2.
Proof.
  intros B1 B2 Hlen H1 H2.
  destruct (string_dec s1 "") as [E1|N1].
  { subst s1. destruct s2; [reflexivity | discriminate]. }
  assert (N2 : s2 <> ""%string).
  { intros ->. destruct s1; [contradiction | discriminate]. }
  pose proof (to_hash_hex_value s1 d n N1 B1 H1) as V1.
  pose proof (to_hash_hex_value s2 d n N2 B2 H2) as V2.
  rewrite V1 in V2. injection V2 as V.
  rewrite !string_length_list in Hlen.
  apply unsigned_binary_inj in V.
  - apply (f_equal (@rev ascii)) in V. rewrite !rev_involutive in V.
    rewrite <- (string_of_list_ascii_of_string s1),
            <- (string_of_list_ascii_of_string s2), V. reflexivity.
  - apply forallb_rev. exact B1.
  - apply forallb_rev. exact B2.
  - rewrite !length_rev. exact Hlen.
Qed.

Lemma digest_determines_bit_pattern_witness :
  is_bit_pattern "0110" = true
  /\ IBMDigest.to_hash_hex "0110" 4 = Ok "6"%string
  /\ "0110"%string = "0110"%string.
Proof.
  split; [reflexivity|]. split; [reflexivity|].
  exact (digest_determines_bit_pattern "0110" "0110" "6" 4
           eq_refl eq_refl eq_refl eq_refl eq_refl).
Defined.

(** ** Circuits: what the message and the sizes decide *)

Lemma message_bit_overflow (message : list Z) (i : nat) :
  (8 * List.length message <= i)%nat -> message_bit message i = false.
Proof.
  intros Hi. unfold message_bit. rewrite nth_overflow.
  - apply Z.testbit_0_l.
  - apply Nat.div_le_lower_bound; lia.
Qed.

Lemma filter_none {A : Type} (f : A -> bool) (l : list A) :
  (forall a, In a l -> f a = false) -> filter f l = [].
Proof.
  induction l as [|a l IH]; intros H; [reflexivity|].
  cbn [filter]. rewrite (H a) by (left; reflexivity).
  apply IH. intros b Hb. apply H. right. exact Hb.
Qed.

(** Bits past the end of the message read as 0: the encoding is the filter
    over all [n] positions. *)
Lemma encode_spec_full (message : list Z) (n : Z) :
  encode_spec message n
  = map (fun i => X (Z.of_nat i))
        (filter (message_bit message) (seq 0 (Z.to_nat n))).
Proof.
  unfold encode_spec.
  destruct (Nat.le_gt_cases (Z.to_nat n) (8 * List.length message)) as [H|H].
  - rewrite Nat.min_l by exact H. reflexivity.
  - rewrite Nat.min_r by lia.
    replace (seq 0 (Z.to_nat n))
      with (seq 0 (8 * List.length message
                   + (Z.to_nat n - 8 * List.length message)))
      by (f_equal; lia).
    rewrite seq_app, filter_app.
    rewrite (filter_none _ (seq (0 + 8 * List.length message) _)).
    + rewrite app_nil_r. reflexivity.
    + intros i Hi. apply in_seq in Hi. apply message_bit_overflow. lia.
Qed.






Lemma cx_pairs_map_cx (l : list Z) :
  cx_pairs (map (fun q => CX q (q + 1)) l) = map (fun q => (q, q + 1)) l.
Proof.
  induction l as [|q l IH]; [reflexivity|]. simpl. rewrite IH. reflexivity.
Qed.

Lemma cx_pairs_entangling (n : Z) :
  cx_pairs (entangling n)
  = map (fun q => (q, q + 1)) (filter Z.even (range (n - 1)))
    ++ map (fun q => (q, q + 1)) (filter Z.odd (range (n - 1)))
    ++ (if 2 <? n then [(n - 1, 0)] else []).
Proof.
  unfold entangling. rewrite !cx_pairs_app, !cx_pairs_map_cx.
  destruct (2 <? n); reflexivity.
Qed.

Lemma NoDup_map_inj {A B : Type} (f : A -> B) (l : list A) :
  (forall x y, f x = f y -> x = y) -> NoDup l -> NoDup (map f l).
Proof.
  intros Hinj. induction 1 as [|x l Hx Hl IH]; cbn [map]; constructor.
  - rewrite in_map_iff. intros [y [Hy Hin]]. apply Hinj in Hy. subst y.
    contradiction.
  - exact IH.
Qed.

Lemma range_NoDup (m : Z) : NoDup (range m).
Proof.
  unfold range. apply NoDup_map_inj; [apply Nat2Z.inj | apply seq_NoDup].
Qed.

(** X9. One entangling block couples each neighbouring pair [(q, q + 1)]
    with [q + 1 < n] once, closes the ring with [(n - 1, 0)] exactly when
    [n > 2], and adds no other pair. *)
Theorem entangle_couples_the_ring (n : Z) (qc : QuantumCircuit) :
  (exists block,
      cx_pairs (data (entangle n qc)) = cx_pairs (data qc) ++ block
      /\ NoDup block
      /\ forall a b, In (a, b) block
                     <-> (0 <= a /\ a + 1 < n /\ b = a + 1)
                         \/ (2 < n /\ a = n - 1 /\ b = 0))
  /\ num_qubits (entangle n qc) = num_qubits qc.
Proof.
  split; [|rewrite entangle_extend; reflexivity].
  exists (cx_pairs (entangling n)). split; [|split].
  - rewrite entangle_extend. unfold extend. cbn [data].
    apply cx_pairs_app.
  - rewrite cx_pairs_entangling.
    assert (Hinj : forall x y : Z, (x, x + 1) = (y, y + 1) -> x = y)
      by (intros x y H; injection H; auto).
    apply NoDup_app; [| apply NoDup_app |].
    + apply NoDup_map_inj; [exact Hinj|]. apply NoDup_filter, range_NoDup.
    + apply NoDup_map_inj; [exact Hinj|]. apply NoDup_filter, range_NoDup.
    + destruct (2 <? n); repeat constructor. intros [].
    + intros p Hp Hw. apply in_map_iff in Hp. destruct Hp as [q [<- Hq]].
      apply filter_In in Hq. destruct Hq as [Hq _]. apply range_in in Hq.
      destruct (2 <? n); [|contradiction].
      destruct Hw as [Hw|[]]. injection Hw as _ Hw. lia.
    + intros p Hp Hw. apply in_map_iff in Hp. destruct Hp as [q [<- Hq]].
      apply filter_In in Hq. destruct Hq as [Hr He]. apply range_in in Hr.
      apply in_app_or in Hw. destruct Hw as [Hw|Hw].
      * apply in_map_iff in Hw. destruct Hw as [q' [Hq' Ho]].
        injection Hq' as Hq' _. subst q'.
        apply filter_In in Ho. destruct Ho as [_ Ho].
        rewrite <- Z.negb_even, He in Ho. discriminate.
      * destruct (2 <? n); [|contradiction].
        destruct Hw as [Hw|[]]. injection Hw as _ Hw. lia.
  - intros a b. rewrite cx_pairs_entangling, !in_app_iff, !in_map_iff. split.
    + intros [[q [Hq Hin]]|[[q [Hq Hin]]|Hw]].
      * injection Hq as <- <-. apply filter_In in Hin.
        destruct Hin as [Hin _]. apply range_in in Hin. left. lia.
      * injection Hq as <- <-. apply filter_In in Hin.
        destruct Hin as [Hin _]. apply range_in in Hin. left. lia.
      * destruct (Z.ltb_spec 2 n); [|contradiction].
        destruct Hw as [Hw|[]]. injection Hw as <- <-. right. lia.
    + intros [[Ha [Hn ->]]|[Hn [-> ->]]].
      * destruct (Z.even a) eqn:E.
        -- left. exists a. split; [reflexivity|].
           apply filter_In. split; [apply range_in; lia | exact E].
        -- right. left. exists a. split; [reflexivity|].
           apply filter_In. split; [apply range_in; lia|].
           rewrite <- Z.negb_even, E. reflexivity.
      * right. right. destruct (Z.ltb_spec 2 n); [|lia]. left. reflexivity.
Qed.

Section Sizes.
Context {G : Generator}.



(** X7. For a qubit count that is not negative the two scripts have the
    same outcome: the notebook's composition of [encode_message],
    [build_random_circuit] and the measurement is the circuit of
    [rqc_hash_ibm.py], with the same Generator object left, and on a
    negative seed both raise the same ValueError.  On a negative qubit count
    the notebook raises CircuitError before any Generator is created. *)
Theorem scripts_build_the_same_circuit (msg : list Z) (n d s : Z) (h : heap) :
  Notebook.main_circuit msg n d s h
  = if n <? 0 then Some (Raise size_error, h)
    else IBM.build_random_circuit n d s msg h.
Proof.
  rewrite notebook_main_run, ibm_build_run.
  destruct (n <? 0); [reflexivity|]. destruct (s <? 0); reflexivity.
Qed.

(** X8. The circuit depends on the first [n] bits of the message only, bits
    past the end of the message counting as 0: two messages that agree on
    those bits give the same circuit. *)
Theorem circuit_reads_first_n_bits (m1 m2 : list Z) (n depth seed : Z)
    (h : heap) :
  (forall i, (i < Z.to_nat n)%nat -> message_bit m1 i = message_bit m2 i) ->
  IBM.build_random_circuit n depth seed m1 h
  = IBM.build_random_circuit n depth seed m2 h
  /\ Notebook.encode_message m1 n = Notebook.encode_message m2 n
  /\ forall qc, fst (IBM.encode n m1 qc) = fst (IBM.encode n m2 qc).
Proof.
  intros Hbits.
  assert (E : encode_spec m1 n = encode_spec m2 n).
  { rewrite !encode_spec_full. f_equal. apply filter_ext_seq.
    intros i Hi. apply Hbits. lia. }
  repeat split.
  - rewrite !ibm_build_run, E. reflexivity.
  - rewrite !notebook_encode_run, E. reflexivity.
  - intros qc. rewrite !ibm_encode_run, E. reflexivity.
Qed.


(** X11. A depth that is zero or negative is no error by itself: the
    outcome is the one of the seed and size checks, and when they pass the
    circuit is the encoding prefix followed by the measures and no value is
    drawn from the new Generator object. *)
Theorem no_layer_without_depth (n depth seed : Z) (message : list Z) (h : heap) :
  depth <= 0 ->
  IBM.build_random_circuit n depth seed message h
  = if seed <? 0 then Some (Raise seed_error, h)
    else if n <? 0 then Some (Raise size_error, h ++ [default_rng seed])
    else Some (Ok (mkCircuit n n (encode_spec message n ++ measure_all n)),
               h ++ [default_rng seed]).
Proof.
  intros Hd. rewrite ibm_build_run. unfold layers_spec.
  replace (Z.to_nat depth) with O by lia. reflexivity.
Qed.

End Sizes.

Lemma harmonic_bits_agree (i : nat) :
  (i < Z.to_nat 8)%nat -> message_bit [255; 1] i = message_bit [255; 2] i.
Proof.
  intros Hi. change (Z.to_nat 8) with 8%nat in Hi.
  do 8 (destruct i as [|i]; [reflexivity|]). lia.
Qed.

Lemma circuit_reads_first_n_bits_witness :
  (forall i, (i < Z.to_nat 8)%nat ->
             message_bit [255; 1] i = message_bit [255; 2] i)
  /\ @IBM.build_random_circuit harmonic_rng 8 1 0 [255; 1] []
     = @IBM.build_random_circuit harmonic_rng 8 1 0 [255; 2] [].
Proof.
  split; [exact harmonic_bits_agree|].
  exact (proj1 (@circuit_reads_first_n_bits harmonic_rng [255; 1] [255; 2]
                  8 1 0 [] harmonic_bits_agree)).
Defined.

Lemma no_layer_without_depth_witness :
  -1 <= 0
  /\ @IBM.build_random_circuit harmonic_rng 2 (-1) 7 [3] []
     = Some (Ok (mkCircuit 2 2 (encode_spec [3] 2 ++ measure_all 2)),
             [] ++ [@default_rng harmonic_rng 7]).
Proof.
  assert (H : -1 <= 0) by lia.
  split; [exact H|].
  exact (@no_layer_without_depth harmonic_rng 2 (-1) 7 [3] [] H).
Defined.

(** ** The notebook's most frequent results *)

Lemma insert_desc_perm (kv : string * Z) (l : list (string * Z)) :
  Permutation (NotebookTop.insert_desc kv l) (kv :: l).
Proof.
  induction l as [|x l IH]; cbn [NotebookTop.insert_desc]; [reflexivity|].
  destruct (snd x >? snd kv); [|reflexivity].
  rewrite IH. apply perm_swap.
Qed.

Lemma sorted_desc_perm (l : list (string * Z)) :
  Permutation (NotebookTop.sorted_desc l) l.
Proof.
  induction l as [|kv l IH]; cbn [NotebookTop.sorted_desc]; [reflexivity|].
  rewrite insert_desc_perm, IH. reflexivity.
Qed.

Lemma insert_desc_sorted (kv : string * Z) (l : list (string * Z)) :
  StronglySorted (fun x y => snd y <= snd x) l ->
  StronglySorted (fun x y => snd y <= snd x) (NotebookTop.insert_desc kv l).
Proof.
  induction 1 as [|x l Hl IH Hx]; cbn [NotebookTop.insert_desc].
  - repeat constructor.
  - destruct (Z.gtb_spec (snd x) (snd kv)) as [Hgt|Hle].
    + constructor; [exact IH|].
      apply Forall_forall. intros y Hy.
      apply (Permutation_in _ (insert_desc_perm kv l)) in Hy.
      destruct Hy as [<-|Hy]; [lia|].
      rewrite Forall_forall in Hx. apply Hx. exact Hy.
    + constructor; [constructor; assumption|].
      constructor; [exact Hle|].
      apply Forall_forall. intros y Hy.
      rewrite Forall_forall in Hx. specialize (Hx y Hy). lia.
Qed.

Lemma sorted_desc_sorted (l : list (string * Z)) :
  StronglySorted (fun x y => snd y <= snd x) (NotebookTop.sorted_desc l).
Proof.
  induction l as [|kv l IH]; cbn [NotebookTop.sorted_desc].
  - constructor.
  - apply insert_desc_sorted. exact IH.
Qed.

Lemma insert_desc_stable (c : Z) (kv : string * Z) (l : list (string * Z)) :
  filter (fun x => snd x =? c) (NotebookTop.insert_desc kv l)
  = filter (fun x => snd x =? c) (kv :: l).
Proof.
  induction l as [|x l IH]; cbn [NotebookTop.insert_desc]; [reflexivity|].
  destruct (Z.gtb_spec (snd x) (snd kv)) as [Hgt|Hle]; [|reflexivity].
  cbn [filter] in *. rewrite IH.
  destruct (Z.eqb_spec (snd kv) c), (Z.eqb_spec (snd x) c);
    try reflexivity; lia.
Qed.

Lemma sorted_desc_stable (c : Z) (l : list (string * Z)) :
  filter (fun x => snd x =? c) (NotebookTop.sorted_desc l)
  = filter (fun x => snd x =? c) l.
Proof.
  induction l as [|kv l IH]; cbn [NotebookTop.sorted_desc]; [reflexivity|].
  rewrite insert_desc_stable. cbn [filter]. rewrite IH. reflexivity.
Qed.

(** X12. The notebook lists [min(8, len(counts))] items of the distribution,
    by non-increasing count; what it leaves out has counts that are not
    greater; items with equal counts come in the order of the
    distribution. *)
Theorem top_results_sorted (counts : IBMDigest.counts_dict) :
  exists rest,
    Permutation (NotebookTop.top counts ++ rest) counts
    /\ StronglySorted (fun x y => snd y <= snd x) (NotebookTop.top counts ++ rest)
    /\ (forall c, filter (fun x => snd x =? c) (NotebookTop.top counts ++ rest)
                  = filter (fun x => snd x =? c) counts)
    /\ List.length (NotebookTop.top counts) = Nat.min 8 (List.length counts).
Proof.
  exists (skipn 8 (NotebookTop.sorted_desc counts)).
  unfold NotebookTop.top. rewrite firstn_skipn. repeat split.
  - apply sorted_desc_perm.
  - apply sorted_desc_sorted.
  - intros c. apply sorted_desc_stable.
  - rewrite length_firstn.
    rewrite (Permutation_length (sorted_desc_perm counts)). reflexivity.
Qed.

Lemma insert_desc_below (kv r : string * Z) (t : list (string * Z)) :
  snd kv < snd r ->
  NotebookTop.insert_desc kv (r :: t) = r :: NotebookTop.insert_desc kv t.
Proof.
  intros H. cbn [NotebookTop.insert_desc].
  destruct (Z.gtb_spec (snd r) (snd kv)); [reflexivity | lia].
Qed.

Lemma sorted_desc_head (before after : list (string * Z)) (r : string * Z) :
  Forall (fun kv => snd kv < snd r) before ->
  Forall (fun kv => snd kv <= snd r) after ->
  exists t, NotebookTop.sorted_desc (before ++ r :: after) = r :: t.
Proof.
  intros Hb Ha. induction Hb as [|b before Hlt Hb IH].
  - cbn [app NotebookTop.sorted_desc].
    destruct (NotebookTop.sorted_desc after) as [|x t] eqn:E.
    + exists []. reflexivity.
    + exists (x :: t). cbn [NotebookTop.insert_desc].
      assert (Hx : snd x <= snd r).
      { rewrite Forall_forall in Ha. apply Ha.
        apply (Permutation_in _ (sorted_desc_perm after)).
        rewrite E. left. reflexivity. }
      destruct (Z.gtb_spec (snd x) (snd r)); [lia | reflexivity].
  - destruct IH as [t Ht]. cbn [app NotebookTop.sorted_desc].
    rewrite Ht, insert_desc_below by exact Hlt.
    eexists. reflexivity.
Qed.

(** X13. The first result the notebook prints is the bit-pattern that
    [rqc_hash_ibm.py] selects for the digest, ties included. *)
Theorem top_result_is_most_frequent (counts : IBMDigest.counts_dict) :
  counts <> [] ->
  exists c rest,
    NotebookTop.top counts
    = (IBMDigest.most_frequent_bitstring counts, c) :: rest.
Proof.
  intros Hne. destruct counts as [|kv items]; [contradiction|].
  destruct (max_by_count_split items kv) as [before [after [Heq [Hb Ha]]]].
  destruct (sorted_desc_head before after _ Hb Ha) as [t Ht].
  unfold NotebookTop.top. cbn [IBMDigest.most_frequent_bitstring].
  set (r := IBMDigest.max_by_count kv items) in *.
  rewrite Heq, Ht. cbn [firstn].
  exists (snd r). eexists. destruct r. reflexivity.
Qed.

Lemma top_result_is_most_frequent_witness :
  [("00"%string, 4); ("01"%string, 9); ("10"%string, 9)] <> []
  /\ exists c rest,
       NotebookTop.top [("00"%string, 4); ("01"%string, 9); ("10"%string, 9)]
       = (IBMDigest.most_frequent_bitstring
            [("00"%string, 4); ("01"%string, 9); ("10"%string, 9)], c) :: rest.
Proof.
  assert (H : [("00"%string, 4); ("01"%string, 9); ("10"%string, 9)] <> [])
    by discriminate.
  split; [exact H|].
  exact (top_result_is_most_frequent _ H).
Defined.

(** ** From the Sampler result to counts *)

Lemma unsigned_binary_app (xs ys : list ascii) :
  unsigned_binary (xs ++ ys)
  = unsigned_binary xs * 2 ^ Z.of_nat (List.length ys) + unsigned_binary ys.
Proof.
  induction xs as [|x xs IH]; [simpl; lia|].
  cbn [app unsigned_binary]. rewrite IH, length_app, Nat2Z.inj_add.
  rewrite Z.pow_add_r by lia. ring.
Qed.

Lemma bin_digit_weight (v : Z) :
  bit_weight (if Z.odd v then "1" else "0")%char = v mod 2.
Proof. rewrite Zmod_odd. destruct (Z.odd v); reflexivity. Qed.

Lemma bin_digits_acc (fuel : nat) (v : Z) (acc : list ascii) :
  bin_digits fuel v acc = bin_digits fuel v [] ++ acc.
Proof.
  revert v acc. induction fuel as [|f IH]; intros v acc; cbn [bin_digits].
  - reflexivity.
  - destruct (v <? 2); [reflexivity|].
    rewrite IH. rewrite (IH _ [_]). rewrite <- app_assoc. reflexivity.
Qed.

Lemma bin_digits_value (fuel : nat) (v : Z) :
  0 <= v < 2 ^ (Z.of_nat fuel + 1) ->
  unsigned_binary (bin_digits fuel v []) = v.
Proof.
  revert v. induction fuel as [|f IH]; intros v Hv.
  - cbn [bin_digits unsigned_binary List.length]. rewrite bin_digit_weight.
    change (2 ^ (Z.of_nat 0 + 1)) with 2 in Hv.
    rewrite Z.mod_small by lia. simpl. lia.
  - cbn [bin_digits]. destruct (Z.ltb_spec v 2) as [Hlt|Hge].
    + cbn [unsigned_binary List.length]. rewrite bin_digit_weight.
      rewrite Z.mod_small by lia. simpl. lia.
    + rewrite bin_digits_acc, unsigned_binary_app, IH.
      * cbn [unsigned_binary List.length]. rewrite bin_digit_weight.
        pose proof (Z.div_mod v 2 ltac:(lia)). simpl. lia.
      * split; [apply Z.div_pos; lia|].
        apply Z.div_lt_upper_bound; [lia|].
        rewrite Nat2Z.inj_succ in Hv.
        replace (Z.succ (Z.of_nat f) + 1) with (Z.succ (Z.of_nat f + 1)) in Hv
          by lia.
        rewrite Z.pow_succ_r in Hv by lia. lia.
Qed.

Lemma bin_digits_bits (fuel : nat) (v : Z) (acc : list ascii) :
  forallb is_bit acc = true -> forallb is_bit (bin_digits fuel v acc) = true.
Proof.
  revert v acc. induction fuel as [|f IH]; intros v acc Hacc; cbn [bin_digits].
  - cbn [forallb]. rewrite Hacc. destruct (Z.odd v); reflexivity.
  - destruct (v <? 2).
    + cbn [forallb]. rewrite Hacc. destruct (Z.odd v); reflexivity.
    + apply IH. cbn [forallb]. rewrite Hacc. destruct (Z.odd v); reflexivity.
Qed.

Lemma bin_digits_length (fuel : nat) (v : Z) :
  0 <= v -> Z.log2 v <= Z.of_nat fuel ->
  Z.of_nat (List.length (bin_digits fuel v [])) = Z.log2 v + 1.
Proof.
  revert v. induction fuel as [|f IH]; intros v Hv Hf.
  - cbn [bin_digits List.length]. pose proof (Z.log2_nonneg v). lia.
  - cbn [bin_digits]. destruct (Z.ltb_spec v 2) as [Hlt|Hge].
    + cbn [List.length].
      assert (Z.log2 v = 0).
      { assert (v = 0 \/ v = 1) as [-> | ->] by lia; reflexivity. }
      lia.
    + rewrite bin_digits_acc, length_app. cbn [List.length].
      assert (Hlog : Z.log2 (v / 2) = Z.log2 v - 1).
      { change 2 with (2 ^ 1) at 1. rewrite <- Z.shiftr_div_pow2 by lia.
        rewrite Z.log2_shiftr by lia.
        assert (1 <= Z.log2 v).
        { change 1 with (Z.log2 2). apply Z.log2_le_mono. exact Hge. }
        lia. }
      rewrite Nat2Z.inj_add, IH.
      * rewrite Hlog. simpl. lia.
      * apply Z.div_pos; lia.
      * rewrite Hlog. lia.
Qed.

Lemma unsigned_binary_zeros (k : nat) (ds : list ascii) :
  unsigned_binary (repeat "0"%char k ++ ds) = unsigned_binary ds.
Proof.
  induction k as [|k IH]; [reflexivity|].
  cbn [repeat app unsigned_binary]. rewrite IH.
  change (bit_weight "0") with 0. lia.
Qed.

Lemma zero_fill_bits (w : Z) (ds : list ascii) :
  forallb is_bit ds = true -> forallb is_bit (zero_fill w ds) = true.
Proof.
  intros H. unfold zero_fill. rewrite forallb_app, H, andb_true_r.
  induction (Z.to_nat w - List.length ds)%nat as [|k IH]; [reflexivity|].
  cbn [repeat forallb]. rewrite IH. reflexivity.
Qed.

Lemma format_b_length (v : Z) :
  0 <= v -> Z.of_nat (List.length (format_b v)) = Z.log2 v + 1.
Proof.
  intros Hv. apply bin_digits_length; [exact Hv|].
  rewrite Z2Nat.id by apply Z.log2_nonneg. lia.
Qed.

Lemma format_b_value (v : Z) : 0 <= v -> unsigned_binary (format_b v) = v.
Proof.
  intros Hv. apply bin_digits_value. split; [exact Hv|].
  rewrite Z2Nat.id by apply Z.log2_nonneg.
  destruct (Z.eq_dec v 0) as [->|Hne]; [simpl; lia|].
  pose proof (Z.log2_spec v ltac:(lia)) as H.
  rewrite <- Z.add_1_r in H. lia.
Qed.

(** X14. With [num_clbits >= 0], an integer key [k >= 0] of a
    quasi-distribution becomes a key of the counts that is a word over 0 and
    1 of [max(num_clbits, log2 k + 1)] characters, where [log2 0] is 0 (the
    key 0 is the word "0" at width 0); that is exactly [num_clbits]
    characters when [num_clbits >= 1] and [k < 2 ^ num_clbits]; and reading
    the word in base 2 gives [k] back. *)
Theorem int_key_round_trip (num_clbits k : Z) :
  0 <= num_clbits -> 0 <= k ->
  exists s,
    RuntimeCounts.key_string num_clbits (RuntimeCounts.IntKey k) = Ok s
    /\ is_bit_pattern s = true
    /\ int_base2 s = Ok k
    /\ Z.of_nat (String.length s) = Z.max num_clbits (Z.log2 k + 1)
    /\ (0 < num_clbits -> k < 2 ^ num_clbits ->
        Z.of_nat (String.length s) = num_clbits).
Proof.
  intros Hw Hk.
  exists (string_of_list_ascii (zero_fill num_clbits (format_b k))).
  assert (Hbits : forallb is_bit (zero_fill num_clbits (format_b k)) = true).
  { apply zero_fill_bits. apply bin_digits_bits. reflexivity. }
  assert (Hlen : Z.of_nat (String.length
                   (string_of_list_ascii (zero_fill num_clbits (format_b k))))
                 = Z.max num_clbits (Z.log2 k + 1)).
  { rewrite string_length_list, list_ascii_of_string_of_list_ascii.
    rewrite zero_fill_length, format_b_length by lia. reflexivity. }
  repeat split.
  - cbn [RuntimeCounts.key_string]. unfold format_0wb.
    destruct (Z.ltb_spec num_clbits 0); [lia|].
    destruct (Z.ltb_spec k 0); [lia|]. reflexivity.
  - unfold is_bit_pattern. rewrite list_ascii_of_string_of_list_ascii.
    exact Hbits.
  - unfold int_base2. rewrite list_ascii_of_string_of_list_ascii.
    pose proof (int_base2_from_spec _ 0 Hbits) as Hv.
    destruct (zero_fill num_clbits (format_b k)) as [|c cs] eqn:E.
    + exfalso. apply (f_equal (@List.length ascii)) in E.
      apply (f_equal Z.of_nat) in E.
      rewrite zero_fill_length, format_b_length in E by lia.
      pose proof (Z.log2_nonneg k). simpl in E. lia.
    + rewrite Hv. f_equal. rewrite <- E. unfold zero_fill.
      rewrite unsigned_binary_zeros, format_b_value by lia. lia.
  - exact Hlen.
  - intros Hpos Hlt. rewrite Hlen.
    destruct (Z.eq_dec k 0) as [->|Hne]; [simpl; lia|].
    assert (Z.log2 k < num_clbits) by (apply Z.log2_lt_pow2; lia). lia.
Qed.

Lemma int_key_round_trip_witness :
  0 <= 3 /\ 0 <= 5
  /\ exists s,
       RuntimeCounts.key_string 3 (RuntimeCounts.IntKey 5) = Ok s
       /\ int_base2 s = Ok 5
       /\ Z.of_nat (String.length s) = 3.
Proof.
  assert (H1 : 0 <= 3) by lia. assert (H2 : 0 <= 5) by lia.
  split; [exact H1|]. split; [exact H2|].
  destruct (int_key_round_trip 3 5 H1 H2) as [s [Hs [_ [Hv [_ Hl]]]]].
  exists s. repeat split; [exact Hs | exact Hv |].
  apply Hl; [lia | reflexivity].
Defined.

Section Extracted.
Import RuntimeCounts.
Variable prob : Type.
Variable count_of : prob -> Z -> extract_exn + Z.

Lemma dict_set_keys (counts : IBMDigest.counts_dict) (k : string) (v : Z)
    (k' : string) :
  In k' (map fst (dict_set counts k v)) <-> k' = k \/ In k' (map fst counts).
Proof.
  induction counts as [|[k0 v0] counts IH]; cbn [dict_set map fst In].
  - intuition congruence.
  - destruct (String.eqb_spec k0 k) as [->|Hne]; cbn [map fst In].
    + intuition congruence.
    + rewrite IH. intuition congruence.
Qed.

Lemma dict_set_wf (counts : IBMDigest.counts_dict) (k : string) (v : Z) :
  NoDup (map fst counts) -> NoDup (map fst (dict_set counts k v)).
Proof.
  induction counts as [|[k0 v0] counts IH]; cbn [dict_set map fst]; intros H.
  - constructor; [intros [] | constructor].
  - destruct (String.eqb_spec k0 k) as [->|Hne]; cbn [map fst]; [exact H|].
    inversion H as [|? ? Hnotin Hrest]; subst. constructor.
    + rewrite dict_set_keys. intros [->|Hin]; [apply Hne; reflexivity|].
      contradiction.
    + apply IH. exact Hrest.
Qed.

Lemma dict_set_items (counts : IBMDigest.counts_dict) (k : string) (v : Z)
    (k' : string) (v' : Z) :
  In (k', v') (dict_set counts k v) ->
  (k' = k /\ v' = v) \/ In (k', v') counts.
Proof.
  induction counts as [|[k0 v0] counts IH]; cbn [dict_set In].
  - intros [H|[]]. injection H as <- <-. left. split; reflexivity.
  - destruct (String.eqb_spec k0 k) as [->|Hne]; cbn [In].
    + intros [H|H]; [injection H as <- <-; left; split; reflexivity|].
      right. right. exact H.
    + intros [H|H]; [right; left; exact H|].
      destruct (IH H) as [H'|H']; [left; exact H' | right; right; exact H'].
Qed.

Lemma to_counts_invariant (n shots : Z) (items : quasi_dist prob)
    (counts counts' : IBMDigest.counts_dict) :
  to_counts prob count_of n shots items counts = inr counts' ->
  NoDup (map fst counts) ->
  NoDup (map fst counts')
  /\ (forall k v, In (k, v) counts' ->
        In (k, v) counts
        \/ exists bitstr p, In (bitstr, p) items
                            /\ key_string n bitstr = Ok k
                            /\ count_of p shots = inr v)
  /\ (forall k, In k (map fst counts) -> In k (map fst counts'))
  /\ (forall bitstr p, In (bitstr, p) items ->
        exists k, key_string n bitstr = Ok k /\ In k (map fst counts')).
Proof.
  revert counts. induction items as [|[bitstr p] items IH]; intros counts Hrun Hwf.
  - cbn [to_counts] in Hrun. injection Hrun as <-.
    repeat split; auto. intros ? ? [].
  - cbn [to_counts] in Hrun.
    destruct (key_string n bitstr) as [k0|e] eqn:Ek; [|discriminate].
    destruct (count_of p shots) as [e|v0] eqn:Ev; [discriminate|].
    destruct (IH _ Hrun (dict_set_wf counts k0 _ Hwf)) as [H1 [H2 [H3 H4]]].
    repeat split.
    + exact H1.
    + intros k v Hin. destruct (H2 k v Hin) as [Hset|[b [q [Hb [Hk Hv]]]]].
      * destruct (dict_set_items _ _ _ _ _ Hset) as [[-> ->]|Hold].
        -- right. exists bitstr, p.
           repeat split; [left; reflexivity | exact Ek | exact Ev].
        -- left. exact Hold.
      * right. exists b, q. repeat split; [right; exact Hb | exact Hk | exact Hv].
    + intros k Hk. apply H3. apply dict_set_keys. right. exact Hk.
    + intros b q [Hb|Hb].
      * injection Hb as <- <-. exists k0. split; [exact Ek|].
        apply H3. apply dict_set_keys. left. reflexivity.
      * apply H4 with q. exact Hb.
Qed.

(** X15. Counts extracted from a Sampler result have distinct keys; every
    item is the formatted key and the converted value of an item of the
    distribution that was found, and every item of that distribution has its
    key among the counts. *)
Theorem extracted_counts_well_formed (num_clbits shots : Z)
    (d : sampler_data prob) (counts : IBMDigest.counts_dict) :
  extract_counts prob count_of num_clbits shots d = inr counts ->
  IBMDigest.wf_counts counts
  /\ exists quasis q,
       probe prob d = inr quasis /\ first_dist prob quasis = inr q
       /\ (forall k v, In (k, v) counts ->
             exists bitstr p, In (bitstr, p) q
                              /\ key_string num_clbits bitstr = Ok k
                              /\ count_of p shots = inr v)
       /\ (forall bitstr p, In (bitstr, p) q ->
             exists k, key_string num_clbits bitstr = Ok k
                       /\ In k (map fst counts)).
Proof.
  unfold extract_counts. intros Hrun.
  destruct (probe prob d) as [e|quasis] eqn:Ep; [discriminate|].
  destruct (first_dist prob quasis) as [e|q] eqn:Eq; [discriminate|].
  destruct (to_counts_invariant _ _ _ _ _ Hrun (NoDup_nil _))
    as [H1 [H2 [_ H4]]].
  split; [exact H1|]. exists quasis, q.
  split; [reflexivity|]. split; [exact Eq|]. split.
  - intros k v Hin. destruct (H2 k v Hin) as [[]|H]. exact H.
  - exact H4.
Qed.

Lemma to_counts_failure (n shots : Z) (items : quasi_dist prob)
    (counts : IBMDigest.counts_dict) (e : extract_exn) :
  to_counts prob count_of n shots items counts = inl e ->
  (e = Exn (ValueError "Invalid format specifier") /\ n < 0)
  \/ exists bitstr p, In (bitstr, p) items /\ count_of p shots = inl e.
Proof.
  revert counts. induction items as [|[bitstr p] items IH]; intros counts H.
  - discriminate.
  - cbn [to_counts] in H.
    assert (Hnext : forall c', to_counts prob count_of n shots items c' = inl e ->
              (e = Exn (ValueError "Invalid format specifier") /\ n < 0)
              \/ exists b q, In (b, q) ((bitstr, p) :: items)
                             /\ count_of q shots = inl e).
    { intros c' Hc'. destruct (IH _ Hc') as [Hf|[b [q [Hb Hq]]]];
        [left; exact Hf|].
      right. exists b, q. split; [right; exact Hb | exact Hq]. }
    destruct (key_string n bitstr) as [k0|e0] eqn:Ek.
    + destruct (count_of p shots) as [e1|v] eqn:Ev.
      * injection H as <-. right. exists bitstr, p.
        split; [left; reflexivity | exact Ev].
      * apply Hnext in H. exact H.
    + injection H as <-. left.
      destruct bitstr as [k|s0]; cbn [key_string] in Ek; [|discriminate].
      unfold format_0wb in Ek. destruct (Z.ltb_spec n 0) as [Hn|Hn].
      * injection Ek as <-. split; [reflexivity | exact Hn].
      * destruct (k <? 0); discriminate.
Qed.

(** X16. With lookups that raise or return [None], a dict or a list of
    dicts, an exception that leaves the conversion is one that a lookup
    raised, or that the conversion of a value raised, or the RuntimeError of
    line 154 (no lookup raised, none returned a distribution), or IndexError
    (the lookup that is kept is an empty list), or the ValueError of a
    negative format width. *)
Theorem extraction_failures (num_clbits shots : Z) (d : sampler_data prob)
    (e : extract_exn) :
  extract_counts prob count_of num_clbits shots d = inl e ->
  In (inl e) [meas_quasi_dists prob d; data_quasi_dists prob d;
              data_dist prob d; data_counts prob d]
  \/ (e = could_not_extract
      /\ (exists a, meas_quasi_dists prob d = inr a /\ truthy prob a = false)
      /\ data_quasi_dists prob d = inr None
      /\ (exists c, data_dist prob d = inr c /\ truthy prob c = false)
      /\ data_counts prob d = inr None)
  \/ (e = IndexError /\ probe prob d = inr (PList prob []))
  \/ (e = Exn (ValueError "Invalid format specifier") /\ num_clbits < 0)
  \/ (exists quasis q bitstr p,
         probe prob d = inr quasis /\ first_dist prob quasis = inr q
         /\ In (bitstr, p) q /\ count_of p shots = inl e).
Proof.
  unfold extract_counts. intros Hrun.
  destruct (probe prob d) as [e0|quasis] eqn:Ep.
  - injection Hrun as <-. unfold probe, py_or in Ep.
    destruct (meas_quasi_dists prob d) as [e1|a] eqn:A.
    { injection Ep as <-. left. left. reflexivity. }
    destruct (truthy prob a) eqn:Ta.
    { destruct a as [pa|]; [discriminate|]. simpl in Ta. discriminate. }
    destruct (data_quasi_dists prob d) as [e1|[pb|]] eqn:B.
    { injection Ep as <-. left. right. left. reflexivity. }
    { discriminate. }
    destruct (data_dist prob d) as [e1|c] eqn:C.
    { injection Ep as <-. left. right. right. left. reflexivity. }
    destruct (truthy prob c) eqn:Tc.
    { destruct c as [pc|]; [discriminate|]. simpl in Tc. discriminate. }
    destruct (data_counts prob d) as [e1|[pd|]] eqn:D.
    { injection Ep as <-. left. right. right. right. left. reflexivity. }
    { discriminate. }
    injection Ep as <-. right. left.
    split; [reflexivity|]. split; [exists a; split; [reflexivity | exact Ta]|].
    split; [reflexivity|]. split; [exists c; split; [reflexivity | exact Tc]|].
    reflexivity.
  - destruct (first_dist prob quasis) as [e0|q] eqn:Eq.
    + injection Hrun as <-. right. right. left.
      destruct quasis as [q|[|q qs]]; try discriminate.
      injection Eq as <-. split; reflexivity.
    + right. right. right.
      destruct (to_counts_failure _ _ _ _ _ Hrun) as [Hf|[b [pr [Hb Hc]]]].
      * left. exact Hf.
      * right. exists quasis, q, b, pr. repeat split; assumption.
Qed.

End Extracted.

Lemma extracted_counts_well_formed_witness :
  let d := {| RuntimeCounts.meas_quasi_dists := inr None;
              RuntimeCounts.data_quasi_dists :=
                inr (Some (RuntimeCounts.PList Z
                             [[(RuntimeCounts.IntKey 2, 3);
                               (RuntimeCounts.StrKey "10", 5);
                               (RuntimeCounts.IntKey 1, 7)]]));
              RuntimeCounts.data_dist := inr None;
              RuntimeCounts.data_counts := inr None |} in
  RuntimeCounts.extract_counts Z (fun p s => inr (p * s)) 2 10 d
  = inr [("10"%string, 50); ("01"%string, 70)]
  /\ IBMDigest.wf_counts [("10"%string, 50); ("01"%string, 70)].
Proof.
  intros d.
  assert (H : RuntimeCounts.extract_counts Z (fun p s => inr (p * s)) 2 10 d
              = inr [("10"%string, 50); ("01"%string, 70)]) by reflexivity.
  split; [exact H|].
  exact (proj1 (extracted_counts_well_formed Z _ 2 10 d _ H)).
Defined.

Lemma extraction_failures_witness :
  let d := {| RuntimeCounts.meas_quasi_dists :=
                inl RuntimeCounts.AttributeError;
              RuntimeCounts.data_quasi_dists := inr None;
              RuntimeCounts.data_dist :=
                inr (Some (RuntimeCounts.PDict Z [(RuntimeCounts.IntKey 1, 1)]));
              RuntimeCounts.data_counts := inr None |} in
  RuntimeCounts.extract_counts Z (fun p s => inr (p * s)) 2 10 d
  = inl RuntimeCounts.AttributeError
  /\ RuntimeCounts.meas_quasi_dists Z d = inl RuntimeCounts.AttributeError.
Proof.
  intros d.
  assert (H : RuntimeCounts.extract_counts Z (fun p s => inr (p * s)) 2 10 d
              = inl RuntimeCounts.AttributeError) by reflexivity.
  split; [exact H|].
  destruct (extraction_failures Z _ 2 10 d _ H)
    as [Hin|[[E _]|[[E _]|[[E _]|[q [q0 [b [p [_ [_ [_ E]]]]]]]]]]];
    try discriminate E.
  destruct Hin as [Hin|[Hin|[Hin|[Hin|[]]]]];
    try discriminate Hin. symmetry. exact Hin.
Defined.

Section Draws.
Context {G : Generator}.


End Draws.
